(** * AudioToTextConverter: the queue, the worker and the progress scraper

    A shallow embedding of [main.py]: the [ProgressParser] class and the
    queue / worker logic of [AudioConverterApp].  Python strings are
    sequences of code points, exceptions are values of an error monad, the
    Tk main loop and the threads are an explicit event system over the
    application state. *)

From Stdlib Require Import NArith ZArith QArith Qround Qabs Qpower Lia Lqa
  String Ascii.
From stdpp Require Import base list pretty.

Local Open Scope N_scope.

(** ** Python strings *)

(** A [str] is a sequence of Unicode code points. *)
Definition pystr := list N.

(** A literal, for inputs written in the ASCII range. *)
Definition py (s : string) : pystr :=
  map N_of_ascii (list_ascii_of_string s).

Definition pystr_eqb (a b : pystr) : bool := bool_decide (a = b).

(** ** Exceptions and results *)

Inductive exn : Type :=
  | FileNotFoundError (path : pystr)   (* "Файл отсутствует: <path>" *)
  | UnsupportedFormat (path : pystr)   (* ValueError, unsupported format *)
  | IntDigitLimit (limit digits : nat) (* ValueError of int(), too many digits *)
  | OverflowError                      (* int / int too large for a float *)
  | InfinityToInt                      (* OverflowError of int(inf) *)
  | TypeError                          (* subscripting None *)
  | External (msg : pystr).            (* raised by the engine or the file system *)

Inductive result (A : Type) : Type :=
  | Ok (a : A)
  | Raise (e : exn).
Arguments Ok {A} a.
Arguments Raise {A} e.

Global Instance result_ret : MRet result := fun A a => Ok a.

Global Instance result_bind : MBind result := fun A B k r =>
  match r with
  | Ok a => k a
  | Raise e => Raise e
  end.

(** [str(e)]: the text the program gave its own exceptions, and the text
    of the interpreter's. *)
Definition exn_str (e : exn) : pystr :=
  match e with
  | FileNotFoundError p =>
      [1060; 1072; 1081; 1083; 32; 1086; 1090; 1089; 1091; 1090; 1089; 1090;
       1074; 1091; 1077; 1090; 58; 32] ++ p
  | UnsupportedFormat p =>
      [1053; 1077; 1087; 1086; 1076; 1076; 1077; 1088; 1078; 1080; 1074; 1072;
       1077; 1084; 1099; 1081; 32; 1092; 1086; 1088; 1084; 1072; 1090; 58; 32]
      ++ p
  | IntDigitLimit limit digits =>
      py "Exceeds the limit (" ++ py (pretty limit)
      ++ py " digits) for integer string conversion: value has "
      ++ py (pretty digits)
      ++ py " digits; use sys.set_int_max_str_digits() to increase the limit"
  | OverflowError => py "integer division result too large for a float"
  | InfinityToInt => py "cannot convert float infinity to integer"
  | TypeError => py "'NoneType' object is not subscriptable"
  | External msg => msg
  end.

(** ** The Python runtime the program runs on

    The character tables and [os.path.normpath] belong to the interpreter
    and the platform, not to the repository: they are an interface. *)

Class Runtime := {
  (** [Py_UNICODE_ISSPACE]: what [\s] and [str.split()] call whitespace. *)
  uni_isspace : N → bool;
  (** [Py_UNICODE_TODECIMAL]: the digit value of a character of category
      Nd, which is what [\d] matches and [int()] reads. *)
  uni_decimal : N → option N;
  (** [str.lower]. *)
  str_lower : pystr → pystr;
  (** [sys.get_int_max_str_digits()]; 0 means no limit (and interpreters
      older than the limit behave as 0). *)
  int_max_str_digits : nat;
  (** [os.path.normpath]. *)
  os_path_normpath : pystr → pystr
}.

(** Facts of every Unicode version: the percent sign and the whitespace
    characters are not decimal digits; the percent sign and the braces are
    not whitespace. *)
Class RuntimeLaws (rt : Runtime) : Prop := {
  space_not_decimal : ∀ c, uni_isspace c = true → uni_decimal c = None;
  percent_not_decimal : uni_decimal 37 = None;
  percent_not_space : uni_isspace 37 = false;
  lbrace_not_space : uni_isspace 123 = false;
  rbrace_not_space : uni_isspace 125 = false
}.

(** ** Floats

    A finite float is represented by its value, a rational.  An operation
    rounds its exact result to binary64: 53 significant bits (fewer below
    [2^-1022]), to the nearest such number, to the even one of two; a
    result that rounds to [2^1024] or more is the infinity, [None]. *)
Definition pyfloat := Q.

(** The integer part of the binary logarithm of a positive rational. *)
Definition Qlog2 (x : Q) : Z :=
  let k := (Z.log2 (Qnum x) - Z.log2 (Zpos (Qden x)))%Z in
  if Qle_bool (2 ^ k) x then k else (k - 1)%Z.

(** The integer nearest to [y], the even one when two are as near. *)
Definition nearest_even (y : Q) : Z :=
  let f := Qfloor y in
  match (y - inject_Z f ?= 1 # 2)%Q with
  | Lt => f
  | Gt => (f + 1)%Z
  | Eq => if Z.even f then f else (f + 1)%Z
  end.

Definition binary64 (x : Q) : option pyfloat :=
  if Qeq_bool x 0 then Some 0%Q
  else
    let e := Z.max (Qlog2 (Qabs x) - 52) (-1074) in
    let r := (inject_Z (nearest_even (Qabs x / 2 ^ e)) * 2 ^ e)%Q in
    if Qle_bool (2 ^ 1024) r then None
    else Some (if Qle_bool 0 x then r else (- r)%Q).

(** The least rational that rounds to the infinity. *)
Definition float_limit : Z := (2 ^ 1024 - 2 ^ 970)%Z.

(** [n / 100] on ints: the quotient correctly rounded, [OverflowError]
    when it does not fit. *)
Definition truediv_100 (n : Z) : result pyfloat :=
  match binary64 (n # 100) with
  | Some v => Ok v
  | None => Raise OverflowError
  end.

(** [v * w] on floats: the product rounded; it overflows to the infinity
    without an exception. *)
Definition float_mul (v w : pyfloat) : option pyfloat := binary64 (v * w).

(** [int(x)] of a float: truncation, [OverflowError] on the infinity. *)
Definition int_of_float (x : option pyfloat) : result Z :=
  match x with
  | Some v => Ok (Z.quot (Qnum v) (Zpos (Qden v)))
  | None => Raise InfinityToInt
  end.

(** ** Helpers of [str] *)

Section Str.
Context `{rt : Runtime}.

Definition is_digit (c : N) : bool :=
  match uni_decimal c with Some _ => true | None => false end.

Definition digit_value (c : N) : N :=
  match uni_decimal c with Some v => v | None => 0 end.

(** The value of a run of decimal digits, most significant first. *)
Definition digits_value (ds : pystr) : Z :=
  fold_left (fun acc c => (10 * acc + Z.of_N (digit_value c))%Z) ds 0%Z.

(** [int(s)] on a string that [\d+] matched. *)
Definition py_int (ds : pystr) : result Z :=
  if (0 <? int_max_str_digits)%nat && (int_max_str_digits <? length ds)%nat
  then Raise (IntDigitLimit int_max_str_digits (length ds))
  else Ok (digits_value ds).

(** [s.lstrip(chars)], [s.rstrip(chars)], [s.strip(chars)]. *)
Definition in_chars (chars : pystr) (c : N) : bool :=
  existsb (N.eqb c) chars.

Fixpoint lstrip (chars s : pystr) : pystr :=
  match s with
  | c :: r => if in_chars chars c then lstrip chars r else s
  | [] => []
  end.

Definition rstrip (chars s : pystr) : pystr :=
  rev (lstrip chars (rev s)).

Definition strip (chars s : pystr) : pystr :=
  rstrip chars (lstrip chars s).

(** [s.endswith(suffix)] and [s.endswith((suffix1, suffix2, ...))]. *)
Fixpoint startswith (s p : pystr) : bool :=
  match p, s with
  | [], _ => true
  | a :: p', b :: s' => (a =? b) && startswith s' p'
  | _ :: _, [] => false
  end.

Definition endswith (s suffix : pystr) : bool :=
  startswith (rev s) (rev suffix).

Definition endswith_any (s : pystr) (suffixes : list pystr) : bool :=
  existsb (endswith s) suffixes.

(** [s.split()]: the maximal runs of non-whitespace characters.  [cur]
    holds the run being read, last character first. *)
Fixpoint split_from (cur s : pystr) : list pystr :=
  match s with
  | [] => match cur with [] => [] | _ => [rev cur] end
  | c :: r =>
      if uni_isspace c
      then match cur with
           | [] => split_from [] r
           | _ => rev cur :: split_from [] r
           end
      else split_from (c :: cur) r
  end.

Definition split (s : pystr) : list pystr := split_from [] s.
End Str.

(** ** The pattern [\s(\d+)%] and [findall] *)

Section Regex.
Context `{rt : Runtime}.

Definition percent : N := 37.

(** [\d+%] at the head of [s], greedy and backtracking: the longest run
    of digits that a percent sign follows.  Returns the digits and what
    follows the percent sign. *)
Fixpoint digits_percent (s : pystr) : option (pystr * pystr) :=
  match s with
  | c :: r =>
      if is_digit c then
        match digits_percent r with
        | Some (ds, rest) => Some (c :: ds, rest)
        | None =>
            match r with
            | p :: rest => if p =? percent then Some ([c], rest) else None
            | [] => None
            end
        end
      else None
  | [] => None
  end.

(** The pattern at the head of [s]: group 1 and the rest of the text. *)
Definition match_here (s : pystr) : option (pystr * pystr) :=
  match s with
  | c :: r => if uni_isspace c then digits_percent r else None
  | [] => None
  end.

(** [pattern.findall(s)]: the matches from left to right, the scan
    resuming where the previous match ended.  [skip] counts the characters
    of the previous match that are still ahead. *)
Fixpoint findall_from (skip : nat) (s : pystr) : list pystr :=
  match s with
  | [] => []
  | _ :: r =>
      match skip with
      | S k => findall_from k r
      | O =>
          match match_here s with
          | Some (g, _) => g :: findall_from (S (length g)) r
          | None => findall_from 0 r
          end
      end
  end.

Definition findall (s : pystr) : list pystr := findall_from 0 s.
End Regex.

(** ** [class ProgressParser] *)

(** What [sys.stdout] can point at: the stream the process started with, or
    the [StringIO] buffer of a parser object. *)
Inductive stream : Type :=
  | Console
  | BufferOf (parser : nat).

Global Instance stream_eq_dec : EqDecision stream.
Proof. solve_decision. Defined.

(** The fields of a parser object.  [update_callback] is not stored: the
    application passes the same bound method to every parser, and the
    operations below take it as an argument. *)
Record ProgressParser := {
  buffer : pystr;
  original_stdout : stream;
  captured_content : pystr
}.

(** The interpreter state the class touches: [sys.stdout], the parser
    objects by identity, and what was written to the original stream. *)
Record Py := {
  sys_stdout : stream;
  heap : list ProgressParser;
  console : pystr
}.

Definition set_stdout (t : stream) (π : Py) : Py :=
  {| sys_stdout := t; heap := heap π; console := console π |}.

Definition set_heap (h : list ProgressParser) (π : Py) : Py :=
  {| sys_stdout := sys_stdout π; heap := h; console := console π |}.

(** [ProgressParser(cb)]: allocates the object, reading [sys.stdout]. *)
Definition ProgressParser_init (π : Py) : nat * Py :=
  (length (heap π),
   set_heap (heap π ++ [{| buffer := []; original_stdout := sys_stdout π;
                           captured_content := [] |}]) π).

(** [__enter__]. *)
Definition ProgressParser_enter (p : nat) (π : Py) : Py :=
  set_stdout (BufferOf p) π.

(** [__exit__]. *)
Definition ProgressParser_exit (p : nat) (π : Py) : Py :=
  match heap π !! p with
  | Some q => set_stdout (original_stdout q) π
  | None => π
  end.

(** [sys.stdout.write(text)], as [print] does. *)
Definition stdout_write (text : pystr) (π : Py) : Py :=
  match sys_stdout π with
  | Console =>
      {| sys_stdout := sys_stdout π; heap := heap π;
         console := console π ++ text |}
  | BufferOf p =>
      match heap π !! p with
      | Some q =>
          set_heap (<[p := {| buffer := buffer q ++ text;
                              original_stdout := original_stdout q;
                              captured_content := captured_content q |}]>
                      (heap π)) π
      | None => π
      end
  end.

Section ReadProgress.
Context `{rt : Runtime} {S : Type}.
(** The callback: the state it leaves, and whether it returned or raised. *)
Variable update_callback : pyfloat → S → S * result unit.

(** The buffer is drained into [captured_content]. *)
Definition drain (q : ProgressParser) : ProgressParser :=
  {| buffer := []; original_stdout := original_stdout q;
     captured_content := captured_content q ++ buffer q |}.

(** [int(matches[-1]) / 100]. *)
Definition latest_progress (token : pystr) : result pyfloat :=
  n ← py_int token; truediv_100 n.

(** [read_progress]: the object after the call, the state the callback
    acts on, and the value returned or the exception raised. *)
Definition read_progress (q : ProgressParser) (s : S)
  : ProgressParser * S * result pyfloat :=
  let q' := drain q in
  match last (findall (captured_content q')) with
  | Some token =>
      match latest_progress token with
      | Ok v =>
          let '(s', returned) := update_callback v s in
          (q', s', _ ← returned; Ok v)
      | Raise e => (q', s, Raise e)
      end
  | None => (q', s, Ok 0%Q)
  end.
End ReadProgress.

(** ** An ASCII runtime on POSIX

    The tables restricted to the ASCII range, and [posixpath.normpath]. *)

Definition ascii_isspace (c : N) : bool :=
  ((9 <=? c) && (c <=? 13)) || ((28 <=? c) && (c <=? 32)).

Definition ascii_decimal (c : N) : option N :=
  if (48 <=? c) && (c <=? 57) then Some (c - 48) else None.

Definition ascii_lower_char (c : N) : N :=
  if (65 <=? c) && (c <=? 90) then c + 32 else c.

Definition slash : N := 47.
Definition dot : pystr := [46].
Definition dotdot : pystr := [46; 46].

(** [path.split('/')]. *)
Fixpoint split_slash (s : pystr) : list pystr :=
  match s with
  | [] => [[]]
  | c :: r =>
      if c =? slash then [] :: split_slash r
      else match split_slash r with
           | h :: t => (c :: h) :: t
           | [] => [[c]]
           end
  end.

(** ['/'.join(comps)]. *)
Fixpoint join_slash (comps : list pystr) : pystr :=
  match comps with
  | [] => []
  | [c] => c
  | c :: cs => c ++ slash :: join_slash cs
  end.

(** The loop of [posixpath.normpath] over the components; [new_comps] is
    kept last component first. *)
Fixpoint norm_comps (initial_slashes : nat) (new_comps comps : list pystr)
  : list pystr :=
  match comps with
  | [] => rev new_comps
  | comp :: cs =>
      if bool_decide (comp = []) || bool_decide (comp = dot)
      then norm_comps initial_slashes new_comps cs
      else if negb (bool_decide (comp = dotdot))
              || (bool_decide (initial_slashes = 0%nat)
                  && bool_decide (new_comps = []))
              || match new_comps with
                 | top :: _ => bool_decide (top = dotdot)
                 | [] => false
                 end
      then norm_comps initial_slashes (comp :: new_comps) cs
      else norm_comps initial_slashes (tl new_comps) cs
  end.

Definition posix_normpath (path : pystr) : pystr :=
  match path with
  | [] => dot
  | _ =>
      let initial_slashes :=
        if startswith path [slash] then
          if startswith path [slash; slash]
             && negb (startswith path [slash; slash; slash])
          then 2%nat else 1%nat
        else 0%nat in
      let joined := join_slash (norm_comps initial_slashes [] (split_slash path)) in
      let out := repeat slash initial_slashes ++ joined in
      match out with [] => dot | _ => out end
  end.

Global Instance posix_ascii : Runtime := {|
  uni_isspace := ascii_isspace;
  uni_decimal := ascii_decimal;
  str_lower := map ascii_lower_char;
  int_max_str_digits := 4300;
  os_path_normpath := posix_normpath
|}.

(** ** [class AudioConverterApp]: the state *)

(** An entry of [self.queue], the dict [{"path": ..., "status": ...}]. *)
Inductive task_status : Type :=
  | Waiting.                                   (* "В ожидании" *)

Record Task := {
  path : pystr;
  status : task_status
}.

(** The texts the program shows, by the format string that builds them. *)
Inductive message : Type :=
  | ErrText (e : exn)                          (* str(e) *)
  | SaveErrText (e : exn).                     (* "Ошибка сохранения: " + str(e) *)

Inductive status_text : Type :=
  | StLoading                                  (* "Загрузка..." *)
  | StInitModel                                (* "Инициализация модели..." *)
  | StDefault                                  (* DEFAULT_STATUS *)
  | StProcessing (p : pystr)                   (* "Обработка: <name>" *)
  | StDone                                     (* "Транскрипция завершена" *)
  | StError (m : message)                      (* "Ошибка: <message>" *)
  | StProgress (percent : Z).                  (* "Прогресс: <percent>%" *)

(** A callback registered with [self.after] and not yet run. *)
Inductive callback : Type :=
  | CbProcessNext                              (* self._process_next_task *)
  | CbUpdateStatus (t : status_text)           (* self._update_status, text *)
  | CbProgressBarSet (v : pyfloat)             (* self.progress_bar.set, value *)
  | CbUpdateProgressUI (v : pyfloat).          (* self._update_progress_ui, value *)

(** A thread started on [_execute_transcription]. *)
Inductive worker : Type :=
  | Spawned                                    (* started, body not entered *)
  | Transcribing (parser : nat) (p : pystr)    (* inside model.transcribe(p) *)
  | Finished.

(** The widgets, as far as the program writes them. *)
Record Gui := {
  lbl_status : status_text;
  task_list : list pystr;                      (* the Listbox, one path per row *)
  progress_bar : pyfloat;
  errors : list message;                       (* messagebox.showerror, oldest first *)
  infos : list pystr                           (* messagebox.showinfo, by source path *)
}.

Record App := {
  model : bool;                                (* self.model is not None *)
  model_ready : bool;                          (* the threading.Event *)
  queue : list Task;
  current_task : option Task;
  running : bool;
  progress_parser : option nat;
  interp : Py;                                 (* sys.stdout and the parser objects *)
  fs_exists : pystr → bool;                    (* os.path.exists *)
  written : list (pystr * pystr);              (* <stem>_transcript.txt files written:
                                                  source path, text *)
  workers : list worker;
  pending : list callback;
  gui : Gui
}.

Definition set_model (b : bool) (a : App) : App :=
  {| model := b; model_ready := model_ready a; queue := queue a;
     current_task := current_task a; running := running a;
     progress_parser := progress_parser a; interp := interp a;
     fs_exists := fs_exists a; written := written a; workers := workers a;
     pending := pending a; gui := gui a |}.

Definition set_model_ready (b : bool) (a : App) : App :=
  {| model := model a; model_ready := b; queue := queue a;
     current_task := current_task a; running := running a;
     progress_parser := progress_parser a; interp := interp a;
     fs_exists := fs_exists a; written := written a; workers := workers a;
     pending := pending a; gui := gui a |}.

Definition set_queue (q : list Task) (a : App) : App :=
  {| model := model a; model_ready := model_ready a; queue := q;
     current_task := current_task a; running := running a;
     progress_parser := progress_parser a; interp := interp a;
     fs_exists := fs_exists a; written := written a; workers := workers a;
     pending := pending a; gui := gui a |}.

Definition set_current_task (t : option Task) (a : App) : App :=
  {| model := model a; model_ready := model_ready a; queue := queue a;
     current_task := t; running := running a;
     progress_parser := progress_parser a; interp := interp a;
     fs_exists := fs_exists a; written := written a; workers := workers a;
     pending := pending a; gui := gui a |}.

Definition set_running (b : bool) (a : App) : App :=
  {| model := model a; model_ready := model_ready a; queue := queue a;
     current_task := current_task a; running := b;
     progress_parser := progress_parser a; interp := interp a;
     fs_exists := fs_exists a; written := written a; workers := workers a;
     pending := pending a; gui := gui a |}.

Definition set_progress_parser (p : option nat) (a : App) : App :=
  {| model := model a; model_ready := model_ready a; queue := queue a;
     current_task := current_task a; running := running a;
     progress_parser := p; interp := interp a;
     fs_exists := fs_exists a; written := written a; workers := workers a;
     pending := pending a; gui := gui a |}.

Definition set_interp (π : Py) (a : App) : App :=
  {| model := model a; model_ready := model_ready a; queue := queue a;
     current_task := current_task a; running := running a;
     progress_parser := progress_parser a; interp := π;
     fs_exists := fs_exists a; written := written a; workers := workers a;
     pending := pending a; gui := gui a |}.

Definition set_fs_exists (f : pystr → bool) (a : App) : App :=
  {| model := model a; model_ready := model_ready a; queue := queue a;
     current_task := current_task a; running := running a;
     progress_parser := progress_parser a; interp := interp a;
     fs_exists := f; written := written a; workers := workers a;
     pending := pending a; gui := gui a |}.

Definition set_written (w : list (pystr * pystr)) (a : App) : App :=
  {| model := model a; model_ready := model_ready a; queue := queue a;
     current_task := current_task a; running := running a;
     progress_parser := progress_parser a; interp := interp a;
     fs_exists := fs_exists a; written := w; workers := workers a;
     pending := pending a; gui := gui a |}.

Definition set_workers (w : list worker) (a : App) : App :=
  {| model := model a; model_ready := model_ready a; queue := queue a;
     current_task := current_task a; running := running a;
     progress_parser := progress_parser a; interp := interp a;
     fs_exists := fs_exists a; written := written a; workers := w;
     pending := pending a; gui := gui a |}.

Definition set_pending (c : list callback) (a : App) : App :=
  {| model := model a; model_ready := model_ready a; queue := queue a;
     current_task := current_task a; running := running a;
     progress_parser := progress_parser a; interp := interp a;
     fs_exists := fs_exists a; written := written a; workers := workers a;
     pending := c; gui := gui a |}.

Definition set_gui (g : Gui) (a : App) : App :=
  {| model := model a; model_ready := model_ready a; queue := queue a;
     current_task := current_task a; running := running a;
     progress_parser := progress_parser a; interp := interp a;
     fs_exists := fs_exists a; written := written a; workers := workers a;
     pending := pending a; gui := g |}.

(** [self.after(ms, cb, ...)]. *)
Definition after (c : callback) (a : App) : App :=
  set_pending (pending a ++ [c]) a.

(** [self.lbl_status.configure(text=...)]. *)
Definition configure_status (t : status_text) (a : App) : App :=
  set_gui {| lbl_status := t; task_list := task_list (gui a);
             progress_bar := progress_bar (gui a); errors := errors (gui a);
             infos := infos (gui a) |} a.

(** [_update_status]. *)
Definition _update_status (t : status_text) (a : App) : App :=
  configure_status t a.

(** [messagebox.showerror]. *)
Definition showerror (m : message) (a : App) : App :=
  set_gui {| lbl_status := lbl_status (gui a); task_list := task_list (gui a);
             progress_bar := progress_bar (gui a);
             errors := errors (gui a) ++ [m]; infos := infos (gui a) |} a.

(** [messagebox.showinfo]. *)
Definition showinfo (p : pystr) (a : App) : App :=
  set_gui {| lbl_status := lbl_status (gui a); task_list := task_list (gui a);
             progress_bar := progress_bar (gui a); errors := errors (gui a);
             infos := infos (gui a) ++ [p] |} a.

Definition set_task_list (l : list pystr) (a : App) : App :=
  set_gui {| lbl_status := lbl_status (gui a); task_list := l;
             progress_bar := progress_bar (gui a); errors := errors (gui a);
             infos := infos (gui a) |} a.

(** [self.progress_bar.set(value)]. *)
Definition progress_bar_set (v : pyfloat) (a : App) : App :=
  set_gui {| lbl_status := lbl_status (gui a); task_list := task_list (gui a);
             progress_bar := v; errors := errors (gui a);
             infos := infos (gui a) |} a.

(** [_show_error]. *)
Definition _show_error (m : message) (a : App) : App :=
  _update_status (StError m) (showerror m a).

(** ** [class AudioConverterApp]: the methods *)

(** [event.data] of a drop: a string, or already a sequence of paths. *)
Inductive drop_data : Type :=
  | DataStr (s : pystr)
  | DataList (l : list pystr).

Section Methods.
Context `{rt : Runtime}.

(** [(".wav", ".mp3")]. *)
Definition SUPPORTED_FORMATS : list pystr :=
  [[46; 119; 97; 118]; [46; 109; 112; 51]].

(** ["{}"], the argument of [strip]. *)
Definition braces : pystr := [123; 125].

Definition _normalize_path (raw_path : pystr) : pystr :=
  os_path_normpath (strip braces raw_path).

Definition _validate_audio_file (a : App) (file_path : pystr) : result unit :=
  if negb (fs_exists a file_path) then Raise (FileNotFoundError file_path)
  else if negb (endswith_any (str_lower file_path) SUPPORTED_FORMATS)
  then Raise (UnsupportedFormat file_path)
  else Ok ().

(** [any(t["path"] == clean_path for t in self.queue)]. *)
Definition in_queue (clean_path : pystr) (q : list Task) : bool :=
  existsb (fun t => pystr_eqb (path t) clean_path) q.

Definition _process_next_task (a : App) : App :=
  if negb (model_ready a) then after CbProcessNext a
  else
    match queue a with
    | t :: q =>
        if model a then
          let a1 := set_queue q (set_current_task (Some t) a) in
          let a2 := _update_status (StProcessing (path t)) a1 in
          let a3 := set_task_list (tl (task_list (gui a2))) a2 in
          set_workers (workers a3 ++ [Spawned]) a3
        else a
    | [] => a
    end.

(** The body of the loop of [_enqueue_files], for one path. *)
Definition enqueue_path (a : App) (raw : pystr) : App :=
  let clean_path := _normalize_path raw in
  match _validate_audio_file a clean_path with
  | Ok _ =>
      if negb (in_queue clean_path (queue a)) then
        set_task_list (task_list (gui a) ++ [clean_path])
          (set_queue (queue a ++ [{| path := clean_path; status := Waiting |}]) a)
      else a
  | Raise e => _show_error (ErrText e) a
  end.

Definition _enqueue_files (file_paths : list pystr) (a : App) : App :=
  _process_next_task (fold_left enqueue_path file_paths a).

Definition _handle_dropped_files (data : drop_data) (a : App) : App :=
  let files := match data with DataStr s => split s | DataList l => l end in
  _enqueue_files files a.

(** [int(value * 100)], the number both progress methods put into the
    status text. *)
Definition percent_of (value : pyfloat) : result Z :=
  int_of_float (float_mul value 100%Q).

(** The state the method leaves, and whether it returned or raised. *)
Definition _handle_progress_update (value : pyfloat) (a : App)
  : App * result unit :=
  let a1 := after (CbProgressBarSet value) a in
  match percent_of value with
  | Ok percent => (configure_status (StProgress percent) a1, Ok ())
  | Raise e => (a1, Raise e)
  end.

Definition _update_progress_ui (value : pyfloat) (a : App)
  : App * result unit :=
  let a1 := progress_bar_set value a in
  match percent_of value with
  | Ok percent => (configure_status (StProgress percent) a1, Ok ())
  | Raise e => (a1, Raise e)
  end.

(** [_save_transcription_result]; [io] is what opening and writing the
    transcript file does. *)
Definition _save_transcription_result (text : pystr) (io : result unit)
    (a : App) : App :=
  match current_task a with
  | None => _show_error (SaveErrText TypeError) a
  | Some t =>
      match io with
      | Ok _ => showinfo (path t) (set_written (written a ++ [(path t, text)]) a)
      | Raise e => _show_error (SaveErrText e) a
      end
  end.

(** [_execute_transcription], thread [w]: its [except] and [finally]
    clauses, the part up to the call of [transcribe], and the part after
    the call has returned or raised. *)
Definition except_clause (e : exn) (a : App) : App :=
  _show_error (ErrText e) (_update_status (StError (ErrText e)) a).

Definition finally_clause (w : nat) (a : App) : App :=
  after CbProcessNext
    (set_current_task None
       (set_progress_parser None
          (set_workers (<[w := Finished]> (workers a)) a))).

Definition leave_with (p : nat) (a : App) : App :=
  set_interp (ProgressParser_exit p (interp a)) a.

Definition worker_begin (w : nat) (a : App) : App :=
  let '(p, π) := ProgressParser_init (interp a) in
  let a1 := set_interp (ProgressParser_enter p π) a in
  let a2 := set_progress_parser (Some p) a1 in
  match current_task a2 with
  | Some t => set_workers (<[w := Transcribing p (path t)]> (workers a2)) a2
  | None => finally_clause w (except_clause TypeError (leave_with p a2))
  end.

Definition worker_end (w p : nat) (outcome : result pystr) (io : result unit)
    (a : App) : App :=
  match outcome with
  | Ok text =>
      let a1 := _update_status StDone (_save_transcription_result text io a) in
      finally_clause w (leave_with p a1)
  | Raise e => finally_clause w (except_clause e (leave_with p a))
  end.

(** The whole method, when nothing else runs during the call of
    [transcribe]; the event system below splits it at that call. *)
Definition _execute_transcription (w : nat) (outcome : result pystr)
    (io : result unit) (a : App) : App :=
  let a1 := worker_begin w a in
  match workers a1 !! w with
  | Some (Transcribing p _) => worker_end w p outcome io a1
  | _ => a1
  end.

(** ["Ошибка отслеживания прогресса: "], then [str(e)] and a newline. *)
Definition watcher_error_line (e : exn) : pystr :=
  [1054; 1096; 1080; 1073; 1082; 1072; 32; 1086; 1090; 1089; 1083; 1077;
   1078; 1080; 1074; 1072; 1085; 1080; 1103; 32; 1087; 1088; 1086; 1075;
   1088; 1077; 1089; 1089; 1072; 58; 32] ++ exn_str e ++ [10].

(** One round of the loop of [progress_watcher]. *)
Definition progress_watcher (a : App) : App :=
  match progress_parser a with
  | Some p =>
      match heap (interp a) !! p with
      | Some q =>
          let '(q', a1, r) := read_progress _handle_progress_update q a in
          let a2 := set_interp (set_heap (<[p := q']> (heap (interp a1)))
                                  (interp a1)) a1 in
          match r with
          | Ok v => after (CbUpdateProgressUI v) a2
          | Raise e =>
              set_interp (stdout_write (watcher_error_line e) (interp a2)) a2
          end
      | None => a
      end
  | None => a
  end.

Definition on_closing (a : App) : App :=
  set_model_ready false (set_running false a).

(** The main loop runs a callback; an exception of the callback is
    reported by Tk on the error stream and the loop goes on. *)
Definition run_callback (c : callback) (a : App) : App :=
  match c with
  | CbProcessNext => _process_next_task a
  | CbUpdateStatus t => _update_status t a
  | CbProgressBarSet v => progress_bar_set v a
  | CbUpdateProgressUI v => (_update_progress_ui v a).1
  end.

(** What can happen next: the threads and the main loop interleave at
    these points.  Once [on_closing] has run the window is destroyed,
    [mainloop] returns and the process ends with its daemon threads, so
    nothing happens any more. *)
Inductive event : Type :=
  | EvModelLoaded                      (* model_loader runs to its end *)
  | EvOpenFiles (paths : list pystr)   (* _open_file_dialog returns paths *)
  | EvDrop (data : drop_data)          (* a <<Drop>> event *)
  | EvTick (i : nat)                   (* the main loop runs a due callback *)
  | EvWorkerBegin (w : nat)            (* thread w reaches model.transcribe *)
  | EvEngineWrite (text : pystr)       (* the engine prints *)
  | EvWorkerEnd (w : nat) (outcome : result pystr) (io : result unit)
                                       (* transcribe returns or raises *)
  | EvMonitor                          (* progress_watcher wakes up *)
  | EvFs (f : pystr → bool)            (* files appear or disappear *)
  | EvClose.                           (* WM_DELETE_WINDOW *)

Definition step (a : App) (ev : event) : App :=
  if negb (running a) then a
  else
    match ev with
    | EvModelLoaded =>
        if model a then a
        else after (CbUpdateStatus StDefault)
               (set_model_ready true (set_model true a))
    | EvOpenFiles paths => _enqueue_files paths a
    | EvDrop data => _handle_dropped_files data a
    | EvTick i =>
        match pending a !! i with
        | Some c => run_callback c (set_pending (delete i (pending a)) a)
        | None => a
        end
    | EvWorkerBegin w =>
        match workers a !! w with
        | Some Spawned => worker_begin w a
        | _ => a
        end
    | EvEngineWrite text => set_interp (stdout_write text (interp a)) a
    | EvWorkerEnd w outcome io =>
        match workers a !! w with
        | Some (Transcribing p _) => worker_end w p outcome io a
        | _ => a
        end
    | EvMonitor => progress_watcher a
    | EvFs f => set_fs_exists f a
    | EvClose => on_closing a
    end.

Definition run (evs : list event) (a : App) : App := fold_left step evs a.

(** The state [__init__] leaves. *)
Definition init_app (fs : pystr → bool) : App :=
  {| model := false; model_ready := false; queue := []; current_task := None;
     running := true; progress_parser := None;
     interp := {| sys_stdout := Console; heap := []; console := [] |};
     fs_exists := fs; written := []; workers := []; pending := [];
     gui := {| lbl_status := StInitModel; task_list := [];
               progress_bar := 0%Q; errors := []; infos := [] |} |}.

(** The jobs being transcribed. *)
Definition is_transcribing (w : worker) : bool :=
  match w with Transcribing _ _ => true | _ => false end.

Definition jobs_running (a : App) : nat :=
  length (filter (fun w => is_transcribing w = true) (workers a)).
End Methods.

(** * The vocabulary of the properties *)

Section Vocabulary.
Context `{rt : Runtime}.

(** ** Percentage tokens *)

(** A percentage token of [text]: a whitespace character, a non-empty run
    [ds] of digits and a percent sign, with [pre] before and [post]
    after. *)
Definition token_at (text pre ds post : pystr) : Prop :=
  ∃ sp, text = pre ++ sp :: ds ++ percent :: post
        ∧ uni_isspace sp = true
        ∧ ds ≠ []
        ∧ Forall (fun c => is_digit c = true) ds.

(** [ds] is the token that starts last in [text]. *)
Definition last_token (text ds : pystr) : Prop :=
  ∃ pre post,
    token_at text pre ds post
    ∧ ∀ pre' ds' post',
        token_at text pre' ds' post' → (length pre' ≤ length pre)%nat.

Definition token_free (text : pystr) : Prop :=
  ∀ pre ds post, ¬ token_at text pre ds post.

(** The matches at every position, overlapping or not. *)
Fixpoint all_matches (s : pystr) : list pystr :=
  match s with
  | [] => []
  | _ :: r =>
      match match_here s with
      | Some (g, _) => g :: all_matches r
      | None => all_matches r
      end
  end.

(** The token is short enough for [int()]. *)
Definition int_accepts (ds : pystr) : Prop :=
  int_max_str_digits = 0%nat ∨ (length ds ≤ int_max_str_digits)%nat.

(** The quotient by 100 is below the overflow bound of floats. *)
Definition float_accepts (n : Z) : Prop := (n < 100 * float_limit)%Z.

(** The numbers whose hundredth [_handle_progress_update] takes without
    raising at [int(value * 100)], and those for which it raises there;
    between them the two roundings decide. *)
Definition percent_accepts (n : Z) : Prop := (n < 2 ^ 1024 - 2 ^ 972)%Z.
Definition percent_overflows (n : Z) : Prop := (2 ^ 1024 + 2 ^ 971 <= n)%Z.

(** [v] is [x] up to the rounding of a float: the relative error is at
    most [2^-53]. *)
Definition rounds (x : Q) (v : pyfloat) : Prop :=
  (x * (1 - (1 # 9007199254740992)) <= v)%Q
  ∧ (v <= x * (1 + (1 # 9007199254740992)))%Q.

(** ** Paths and fragments *)

Definition is_brace (c : N) : Prop := c = 123 ∨ c = 125.

Definition has_visible (s : pystr) : Prop :=
  Exists (fun c => uni_isspace c = false) s.

Definition no_space (s : pystr) : Prop :=
  Forall (fun c => uni_isspace c = false) s.

(** A component of a normalized POSIX path. *)
Definition component (c : pystr) : Prop := c ≠ [] ∧ slash ∉ c.

(** The components [normpath] keeps when none of them is [..]: all but the
    empty ones, which repeated and trailing separators leave, and [.]. *)
Definition kept (c : pystr) : Prop := c ≠ [] ∧ c ≠ dot.

(** ** The order of processing *)

(** The job an event started, if it started one: [_process_next_task] is
    the one place that starts a thread, and it sets [current_task] to the
    job it popped. *)
Definition started_by (a a' : App) : list pystr :=
  if (length (workers a) <? length (workers a'))%nat then
    match current_task a' with Some t => [path t] | None => [] end
  else [].

(** The paths of the jobs in the order they begin processing. *)
Fixpoint processing_order (evs : list event) (a : App) : list pystr :=
  match evs with
  | [] => []
  | ev :: r => started_by a (step a ev) ++ processing_order r (step a ev)
  end.

Definition is_valid (a : App) (clean : pystr) : bool :=
  match _validate_audio_file a clean with Ok _ => true | Raise _ => false end.

(** The normalized paths a batch of raw paths adds to the queue, when
    [waiting] are the paths pending at its start: those that pass
    validation and are not pending at their turn. *)
Fixpoint accepted (a : App) (waiting raws : list pystr) : list pystr :=
  match raws with
  | [] => []
  | raw :: r =>
      let clean := _normalize_path raw in
      if is_valid a clean && negb (bool_decide (clean ∈ waiting))
      then clean :: accepted a (waiting ++ [clean]) r
      else accepted a waiting r
  end.

Definition appended_by (a : App) (ev : event) : list pystr :=
  if negb (running a) then []
  else
    match ev with
    | EvOpenFiles paths => accepted a (map path (queue a)) paths
    | EvDrop (DataStr s) => accepted a (map path (queue a)) (split s)
    | EvDrop (DataList l) => accepted a (map path (queue a)) l
    | _ => []
    end.

(** The accepted paths of a run, in the order of their enqueue. *)
Fixpoint enqueue_order (evs : list event) (a : App) : list pystr :=
  match evs with
  | [] => []
  | ev :: r => appended_by a ev ++ enqueue_order r (step a ev)
  end.

(** [l] without the elements of [seen] and with every later duplicate
    collapsed to its first occurrence. *)
Fixpoint first_occurrences (seen l : list pystr) : list pystr :=
  match l with
  | [] => []
  | x :: r =>
      if bool_decide (x ∈ seen) then first_occurrences seen r
      else x :: first_occurrences (seen ++ [x]) r
  end.

(** ** Captures and failures *)

(** Parser [p] is an object of [π], and [t] is what its [__exit__] will
    make [sys.stdout] point at. *)
Definition restores (π : Py) (p : nat) (t : stream) : Prop :=
  ∃ q, heap π !! p = Some q ∧ original_stdout q = t.

(** The message a job leaves when it ends with [outcome] and [io] and its
    transcription, or the writing of its result, has raised. *)
Definition reported (a : App) (outcome : result pystr) (io : result unit)
  : option message :=
  match outcome with
  | Raise e => Some (ErrText e)
  | Ok _ =>
      match current_task a, io with
      | None, _ => Some (SaveErrText TypeError)
      | Some _, Raise e => Some (SaveErrText e)
      | Some _, Ok _ => None
      end
  end.
End Vocabulary.

(** ** Sample inputs *)

(** A parser whose buffer holds [text] and that has read nothing yet. *)
Definition fresh_parser (text : pystr) : ProgressParser :=
  {| buffer := text; original_stdout := Console; captured_content := [] |}.

(** A callback that records the values it is given. *)
Definition record_value (v : pyfloat) (seen : list pyfloat)
  : list pyfloat * result unit :=
  (seen ++ [v], Ok ()).

Definition sample_text : pystr := py "... 10% ... 55% ... 42%".

(** The floats [0.42] and [1.5]. *)
Definition float_042 : pyfloat := 7566047373982433 # 18014398509481984.
Definition float_15 : pyfloat := 6755399441055744 # 4503599627370496.

(** A one followed by 400 zeros. *)
Definition googol4 : pystr := 49 :: repeat 48 400.

(** A one followed by 309 zeros. *)
Definition googol309 : pystr := 49 :: repeat 48 309.

(** File systems in which every path, or no path, exists. *)
Definition every_file : pystr → bool := fun _ => true.
Definition no_file : pystr → bool := fun _ => false.

Definition a_wav : pystr := py "a.wav".
Definition b_wav : pystr := py "b.wav".
Definition x_mp3 : pystr := py "x.mp3".
Definition y_wav : pystr := py "y.wav".

Definition waiting_task (p : pystr) : Task := {| path := p; status := Waiting |}.

(** The model is loaded, [a.wav] was enqueued and is being transcribed. *)
Definition transcribing_a : App :=
  run [EvModelLoaded; EvTick 0; EvOpenFiles [a_wav]; EvWorkerBegin 0]
    (init_app every_file).

(** [x.mp3] is being transcribed and [y.wav] is pending. *)
Definition transcribing_x : App :=
  run [EvModelLoaded; EvTick 0; EvOpenFiles [x_mp3; y_wav]; EvWorkerBegin 0]
    (init_app every_file).

(** * More vocabulary: the rest of the file *)

(** What [sys.stdout.write(text)] does to the parser it reaches. *)
Definition feed (text : pystr) (q : ProgressParser) : ProgressParser :=
  {| buffer := buffer q ++ text; original_stdout := original_stdout q;
     captured_content := captured_content q |}.

Section MoreVocabulary.
Context `{rt : Runtime}.

(** The extension test of [_validate_audio_file]. *)
Definition supported (p : pystr) : Prop :=
  endswith_any (str_lower p) SUPPORTED_FORMATS = true.

(** What the queue, the Listbox and [current_task] keep. *)
Definition queue_consistent (a : App) : Prop :=
  NoDup (map path (queue a))
  ∧ task_list (gui a) = map path (queue a)
  ∧ Forall supported (map path (queue a))
  ∧ (∀ t, current_task a = Some t → supported (path t)).

(** The messages a batch of raw paths produces: one per path that fails
    validation. *)
Definition rejections (a : App) (raws : list pystr) : list message :=
  flat_map (fun raw =>
              match _validate_audio_file a (_normalize_path raw) with
              | Ok _ => []
              | Raise e => [ErrText e]
              end) raws.

Definition is_enqueue (ev : event) : bool :=
  match ev with EvOpenFiles _ | EvDrop _ => true | _ => false end.

(** An event other than the end of [model_loader] and the closing of the
    window. *)
Definition before_loading (ev : event) : Prop :=
  ev ≠ EvModelLoaded ∧ ev ≠ EvClose.

(** The state of an application whose model is not loaded yet and that
    has [n] calls of [_process_next_task] scheduled. *)
Definition waiting_for_model (n : nat) (a : App) : Prop :=
  running a = true ∧ model_ready a = false ∧ model a = false
  ∧ workers a = [] ∧ current_task a = None ∧ progress_parser a = None
  ∧ written a = [] ∧ pending a = replicate n CbProcessNext.

(** The events of a worker that runs jobs one after the other: thread
    [w] transcribes and writes the first text, the main loop runs the
    callback at index [tick], which starts thread [w + 1], and so on. *)
Fixpoint serial_events (w tick : nat) (texts : list pystr) : list event :=
  match texts with
  | [] => []
  | text :: r =>
      [EvWorkerBegin w; EvWorkerEnd w (Ok text) (Ok ()); EvTick tick]
      ++ serial_events (S w) tick r
  end.

(** Every transcript written and the job in [current_task] belong to the
    jobs [started]. *)
Definition accounted (started : list pystr) (a : App) : Prop :=
  (∀ t, current_task a = Some t → path t ∈ started)
  ∧ Forall (fun entry => entry.1 ∈ started) (written a).
End MoreVocabulary.

(** ** [pathlib] on POSIX, as far as [_save_transcription_result] uses it *)

(** The root and the parts of [PurePosixPath(p)]: one leading separator, or
    exactly two, is the root; empty parts and ["."] parts are dropped. *)
Definition path_root (p : pystr) : pystr :=
  match p with
  | a :: r =>
      if a =? slash then
        match r with
        | b :: r' =>
            if b =? slash then
              match r' with
              | c :: _ => if c =? slash then [slash] else [slash; slash]
              | [] => [slash; slash]
              end
            else [slash]
        | [] => [slash]
        end
      else []
  | [] => []
  end.

Definition path_parts (p : pystr) : list pystr :=
  List.filter (fun x => negb (bool_decide (x = [])) && negb (bool_decide (x = dot)))
    (split_slash p).

(** [name.rfind('.')]: the text before the last dot and the text after. *)
Fixpoint rsplit_dot (name : pystr) : option (pystr * pystr) :=
  match name with
  | [] => None
  | c :: r =>
      match rsplit_dot r with
      | Some (before, after) => Some (c :: before, after)
      | None => if c =? 46 then Some ([], r) else None
      end
  end.

(** [Path.stem], by the rule [0 < i < len(name) - 1] of Python up to 3.13;
    later versions differ only for names that end with a dot or whose text
    before the last dot is made of dots, which the properties below leave
    out. *)
Definition path_stem (name : pystr) : pystr :=
  match rsplit_dot name with
  | Some ((_ :: _) as before, _ :: _) => before
  | _ => name
  end.

(** ["_transcript.txt"]. *)
Definition transcript_suffix : pystr :=
  Eval cbv in py "_transcript.txt".

(** [source_file.with_name(f"{source_file.stem}_transcript.txt")] as a
    string; [None] is the [ValueError] of [with_name] on an empty name. *)
Definition transcript_path (source : pystr) : option pystr :=
  match rev (path_parts source) with
  | [] => None
  | name :: parents =>
      Some (path_root source
            ++ join_slash (rev parents ++ [path_stem name ++ transcript_suffix]))
  end.

(** A part that [pathlib] and [normpath] both keep as it is. *)
Definition plain (c : pystr) : Prop := component c ∧ c ≠ dot.

(** ** More sample inputs *)

(** The model is loaded, [x.mp3] was popped and its thread started,
    [y.wav] is pending. *)
Definition ready_with_two_jobs : App :=
  run [EvModelLoaded; EvTick 0; EvOpenFiles [x_mp3; y_wav]]
    (init_app every_file).

(** [a.wav] is being transcribed and the engine has printed [text]. *)
Definition reporting (text : pystr) : App :=
  step transcribing_a (EvEngineWrite text).

(** * Properties *)

(** Both progress methods branch on [int(value * 100)]. *)
Ltac percent_cases :=
  unfold _update_progress_ui, _handle_progress_update;
  repeat match goal with
         | |- context [percent_of ?v] => destruct (percent_of v)
         end.

(** ** Rounding to binary64 *)

Section Floats.
Local Open Scope Q_scope.

Lemma pow2_pos e : 0 < 2 ^ e.
Proof. by apply Qpower_0_lt. Qed.

Lemma pow2_succ e : 2 ^ (e + 1) == 2 * 2 ^ e.
Proof. rewrite Qpower_plus by done. change (2 ^ 1) with 2. ring. Qed.

Lemma pow2_le e e' : (e <= e')%Z -> 2 ^ e <= 2 ^ e'.
Proof. intros H. by apply Qpower_le_compat_l. Qed.

Lemma pow2_inject n : (0 <= n)%Z -> inject_Z (2 ^ n) == 2 ^ n.
Proof. intros H. by rewrite Zpower_Qpower. Qed.

Lemma Qlog2_spec x : 0 < x -> 2 ^ Qlog2 x <= x /\ x < 2 ^ (Qlog2 x + 1).
Proof.
  intros Hx. destruct x as [a b]. unfold Qlog2. cbn [Qnum Qden].
  assert (0 < a)%Z as Ha by (unfold Qlt in Hx; simpl in Hx; lia).
  set (t := Z.log2 a). set (u := Z.log2 (Z.pos b)).
  destruct (Z.log2_spec a Ha) as [Ht1 Ht2].
  destruct (Z.log2_spec (Z.pos b) eq_refl) as [Hu1 Hu2].
  fold t in Ht1, Ht2. fold u in Hu1, Hu2.
  assert (0 <= t)%Z as Ht0 by apply Z.log2_nonneg.
  assert (0 <= u)%Z as Hu0 by apply Z.log2_nonneg.
  assert (2 ^ (t - u) * 2 ^ u == 2 ^ t) as Hk.
  { rewrite <- Qpower_plus by done. by replace (t - u + u)%Z with t by lia. }
  assert ((a # b) * inject_Z (Z.pos b) == inject_Z a) as Hab.
  { rewrite Qmake_Qdiv. field. done. }
  pose proof (pow2_pos (t - u)) as Hp. pose proof (pow2_pos u) as Hpu.
  pose proof (pow2_pos t) as Hpt.
  rewrite <- (pow2_inject t) in Hk, Hpt by done.
  rewrite <- (pow2_inject u) in Hk, Hpu by done.
  rewrite Z.pow_succ_r in Ht2, Hu2 by done.
  rewrite Zle_Qle in Ht1, Hu1. rewrite Zlt_Qlt in Ht2, Hu2.
  rewrite inject_Z_mult in Ht2, Hu2.
  set (A := inject_Z a) in *. set (B := inject_Z (Z.pos b)) in *.
  set (T := inject_Z (2 ^ t)) in *. set (U := inject_Z (2 ^ u)) in *.
  set (x := a # b) in *.
  destruct (Qle_bool (2 ^ (t - u)) x) eqn:Hle.
  - apply Qle_bool_iff in Hle. split; [done|].
    rewrite pow2_succ. set (P := 2 ^ (t - u)) in *.
    change (inject_Z 2) with 2 in *. nra.
  - assert (x < 2 ^ (t - u)) as Hlt.
    { apply Qnot_le_lt. intros H. apply Qle_bool_iff in H. congruence. }
    replace (t - u - 1 + 1)%Z with (t - u)%Z by lia. split; [|done].
    assert (2 ^ (t - u) == 2 * 2 ^ (t - u - 1)) as Hhalf.
    { rewrite <- pow2_succ. by replace (t - u - 1 + 1)%Z with (t - u)%Z by lia. }
    pose proof (pow2_pos (t - u - 1)) as Hp1.
    set (P := 2 ^ (t - u)) in *. set (P1 := 2 ^ (t - u - 1)) in *.
    change (inject_Z 2) with 2 in *. nra.
Qed.

Lemma inject_Z_pred k : inject_Z (k - 1) == inject_Z k - 1.
Proof.
  unfold Z.sub. rewrite inject_Z_plus, inject_Z_opp. reflexivity.
Qed.

Lemma inject_Z_succ k : inject_Z (k + 1) == inject_Z k + 1.
Proof. rewrite inject_Z_plus. reflexivity. Qed.

Lemma nearest_even_near y :
  inject_Z (nearest_even y) - (1 # 2) <= y /\ y <= inject_Z (nearest_even y) + (1 # 2).
Proof.
  unfold nearest_even. pose proof (Qfloor_le y) as H1.
  pose proof (Qlt_floor y) as H2. rewrite inject_Z_plus in H2.
  change (inject_Z 1) with 1 in H2.
  destruct (Qcompare_spec (y - inject_Z (Qfloor y)) (1 # 2)) as [H|H|H].
  - destruct (Z.even (Qfloor y)); [lra|].
    rewrite inject_Z_plus. change (inject_Z 1) with 1. lra.
  - lra.
  - rewrite inject_Z_plus. change (inject_Z 1) with 1. lra.
Qed.

Lemma nearest_even_floor y : (Qfloor y <= nearest_even y)%Z.
Proof.
  unfold nearest_even.
  destruct (_ ?= _); [destruct (Z.even _)|..]; lia.
Qed.

(** Half way below an even integer rounds up to it. *)
Lemma nearest_even_half k y :
  Z.even k = true -> inject_Z k - (1 # 2) <= y -> (k <= nearest_even y)%Z.
Proof.
  intros Hk Hy.
  assert (k - 1 <= Qfloor y)%Z as Hf.
  { rewrite <- (Qfloor_Z (k - 1)). apply Qfloor_resp_le.
    rewrite inject_Z_pred. lra. }
  destruct (Z.eq_dec (Qfloor y) (k - 1)%Z) as [Heq|Hne].
  - unfold nearest_even. rewrite Heq.
    assert (Z.even (k - 1)%Z = false) as Hodd.
    { rewrite Z.even_sub, Hk. done. }
    rewrite Hodd.
    destruct (Qcompare_spec (y - inject_Z (k - 1)%Z) (1 # 2)) as [H|H|H]; [lia| |lia].
    rewrite inject_Z_pred in H. lra.
  - pose proof (nearest_even_floor y). lia.
Qed.

Lemma binary64_pos x :
  0 < x ->
  binary64 x
  = let e := Z.max (Qlog2 x - 52) (-1074) in
    let r := inject_Z (nearest_even (x / 2 ^ e)) * 2 ^ e in
    if Qle_bool (2 ^ 1024) r then None else Some r.
Proof.
  intros Hx. unfold binary64.
  assert (Qeq_bool x 0 = false) as ->.
  { destruct (Qeq_bool x 0) eqn:H; [|done].
    apply Qeq_bool_iff in H. rewrite H in Hx. discriminate. }
  assert (Qle_bool 0 x = true) as -> by (apply Qle_bool_iff; lra).
  assert (Qabs x = x) as ->; [|done].
  destruct x as [[|a|a] b]; done.
Qed.

(** The rounded value is within half a unit in the last place. *)
Lemma binary64_near x e :
  0 < x ->
  let r := inject_Z (nearest_even (x / 2 ^ e)) * 2 ^ e in
  x - 2 ^ e * (1 # 2) <= r /\ r <= x + 2 ^ e * (1 # 2).
Proof.
  intros Hx r. subst r.
  destruct (nearest_even_near (x / 2 ^ e)) as [H1 H2].
  pose proof (pow2_pos e) as Hp.
  assert (x / 2 ^ e * 2 ^ e == x) as Hy by (field; lra).
  set (P := 2 ^ e) in *. set (y := x / P) in *.
  set (m := inject_Z (nearest_even y)) in *. nra.
Qed.

Lemma float_limit_pow2 : inject_Z float_limit == 2 ^ 1024 - 2 ^ 970.
Proof. by vm_compute. Qed.

Lemma pow2_lt_inv e e' : 2 ^ e < 2 ^ e' -> (e < e')%Z.
Proof. intros H. by apply (Qpower_lt_compat_l_inv 2). Qed.

(** [binary64] is finite below [2^1024 - 2^970] ... *)
Lemma binary64_finite x :
  0 < x -> x < inject_Z float_limit ->
  exists r, binary64 x = Some r
            /\ x - 2 ^ Z.max (Qlog2 x - 52) (-1074) * (1 # 2) <= r
            /\ r <= x + 2 ^ Z.max (Qlog2 x - 52) (-1074) * (1 # 2).
Proof.
  intros Hx Hlim. rewrite binary64_pos by done. cbv zeta.
  set (e := Z.max (Qlog2 x - 52) (-1074)).
  destruct (binary64_near x e Hx) as [H1 H2].
  set (r := inject_Z (nearest_even (x / 2 ^ e)) * 2 ^ e) in *.
  destruct (Qlog2_spec x Hx) as [Hl1 Hl2].
  rewrite float_limit_pow2 in Hlim.
  assert (Qlog2 x < 1024)%Z as Hlg.
  { apply pow2_lt_inv. pose proof (pow2_pos 970). lra. }
  assert (2 ^ e <= 2 ^ 971) as He by (apply pow2_le; lia).
  assert (2 ^ 971 == 2 * 2 ^ 970) as H971 by apply (pow2_succ 970).
  assert (r < 2 ^ 1024) as Hr.
  { set (A := 2 ^ 970) in *. set (B := 2 ^ 1024) in *. set (C := 2 ^ 971) in *.
    set (P := 2 ^ e) in *. lra. }
  destruct (Qle_bool (2 ^ 1024) r) eqn:Hb.
  { apply Qle_bool_iff in Hb. lra. }
  by exists r.
Qed.

(** ... and infinite from there on. *)
Lemma binary64_infinite x :
  inject_Z float_limit <= x -> binary64 x = None.
Proof.
  intros Hlim. rewrite float_limit_pow2 in Hlim.
  assert (2 ^ 1024 == 2 ^ 54 * 2 ^ 970) as H1024 by (rewrite <- Qpower_plus; done).
  assert (2 ^ 1023 == 2 ^ 53 * 2 ^ 970) as H1023 by (rewrite <- Qpower_plus; done).
  pose proof (pow2_pos 970) as H970.
  assert (2 ^ 1023 <= x) as Hx1023.
  { change (2 ^ 54) with (18014398509481984 # 1) in H1024.
    change (2 ^ 53) with (9007199254740992 # 1) in H1023.
    set (A := 2 ^ 970) in *. set (B := 2 ^ 1024) in *. set (C := 2 ^ 1023) in *.
    lra. }
  assert (0 < x) as Hx by (pose proof (pow2_pos 1023); lra).
  rewrite binary64_pos by done. cbv zeta.
  destruct (Qlog2_spec x Hx) as [Hl1 Hl2].
  assert (1023 <= Qlog2 x)%Z as Hlg.
  { assert (1023 < Qlog2 x + 1)%Z; [|lia]. apply pow2_lt_inv. lra. }
  replace (Z.max (Qlog2 x - 52) (-1074)) with (Qlog2 x - 52)%Z by lia.
  set (e := (Qlog2 x - 52)%Z) in *.
  set (m := nearest_even (x / 2 ^ e)).
  assert (2 ^ 1024 <= inject_Z m * 2 ^ e) as Hr; [|by apply Qle_bool_iff in Hr as ->].
  pose proof (pow2_pos e) as Hpe.
  destruct (Z.eq_dec (Qlog2 x) 1023%Z) as [Heq|Hne].
  - assert (e = 971%Z) as -> by lia.
    assert (2 ^ 53 <= m)%Z as Hm.
    { apply nearest_even_half; [done|].
      apply Qle_shift_div_l; [done|].
      assert (2 ^ 971 == 2 * 2 ^ 970) as H971 by apply (pow2_succ 970).
      change (inject_Z (2 ^ 53)) with (9007199254740992 # 1).
      change (2 ^ 54) with (18014398509481984 # 1) in H1024.
      set (A := 2 ^ 970) in *. set (B := 2 ^ 1024) in *. set (C := 2 ^ 971) in *.
      lra. }
    rewrite Zle_Qle in Hm.
    assert (2 ^ 1024 == inject_Z (2 ^ 53) * 2 ^ 971) as ->.
    { change (inject_Z (2 ^ 53)) with (2 ^ 53). rewrite <- Qpower_plus; done. }
    apply Qmult_le_compat_r; [done|lra].
  - assert (2 ^ 52 <= m)%Z as Hm.
    { etrans; [|apply nearest_even_floor].
      rewrite <- (Qfloor_Z (2 ^ 52)). apply Qfloor_resp_le.
      apply Qle_shift_div_l; [done|].
      change (inject_Z (2 ^ 52)) with (2 ^ 52). rewrite <- Qpower_plus by done.
      by replace (52 + e)%Z with (Qlog2 x) by lia. }
    rewrite Zle_Qle in Hm.
    assert (2 ^ 1024 <= inject_Z (2 ^ 52) * 2 ^ e) as H.
    { change (inject_Z (2 ^ 52)) with (2 ^ 52). rewrite <- Qpower_plus by done.
      apply pow2_le. lia. }
    eapply Qle_trans; [exact H|]. apply Qmult_le_compat_r; [done|lra].
Qed.

(** In the normal range the relative error is at most [2^-53]. *)
Lemma binary64_relative x r :
  2 ^ (-1022) <= x -> binary64 x = Some r ->
  x * (1 - (1 # 9007199254740992)) <= r /\ r <= x * (1 + (1 # 9007199254740992)).
Proof.
  intros Hx Hr.
  assert (0 < x) as Hx0 by (pose proof (pow2_pos (-1022)); lra).
  rewrite binary64_pos in Hr by done. cbv zeta in Hr.
  destruct (Qlog2_spec x Hx0) as [Hl1 Hl2].
  assert (-1022 <= Qlog2 x)%Z as Hlg.
  { assert (-1022 < Qlog2 x + 1)%Z; [|lia]. apply pow2_lt_inv. lra. }
  replace (Z.max (Qlog2 x - 52) (-1074)) with (Qlog2 x - 52)%Z in Hr by lia.
  destruct (Qle_bool _ _) in Hr; [done|]. injection Hr as <-.
  destruct (binary64_near x (Qlog2 x - 52) Hx0) as [H1 H2].
  assert (2 ^ (Qlog2 x - 52) == 2 ^ Qlog2 x * (1 # 4503599627370496)) as He.
  { unfold Z.sub. rewrite Qpower_plus by done. reflexivity. }
  set (r := inject_Z _ * _) in *.
  set (P := 2 ^ (Qlog2 x - 52)) in *. set (L := 2 ^ Qlog2 x) in *.
  change (1 # 9007199254740992) with ((1 # 4503599627370496) * (1 # 2)).
  nra.
Qed.

Lemma binary64_nonneg x v : 0 <= x -> binary64 x = Some v -> 0 <= v.
Proof.
  intros Hx Hv. destruct (Qeq_bool x 0) eqn:H0.
  { unfold binary64 in Hv. rewrite H0 in Hv. by injection Hv as <-. }
  assert (0 < x) as Hx0.
  { apply Qle_lteq in Hx as [Hx|Hx]; [done|].
    symmetry in Hx. apply Qeq_bool_iff in Hx. congruence. }
  rewrite binary64_pos in Hv by done. cbv zeta in Hv.
  destruct (Qle_bool _ _) in Hv; [done|]. injection Hv as <-.
  set (e := Z.max (Qlog2 x - 52) (-1074)).
  apply Qmult_le_0_compat; [|apply Qlt_le_weak, pow2_pos].
  change 0 with (inject_Z 0). rewrite <- Zle_Qle.
  etrans; [|apply nearest_even_floor].
  rewrite <- (Qfloor_Z 0). apply Qfloor_resp_le.
  apply Qle_shift_div_l; [apply pow2_pos|].
  change (inject_Z 0) with 0. rewrite Qmult_0_l. lra.
Qed.
End Floats.

(** ** The scan of [findall] against the tokens of a text *)

Section Tokens.
Context `{rt : Runtime}.

Lemma digits_percent_sound s ds rest :
  digits_percent s = Some (ds, rest) →
  ds ≠ [] ∧ Forall (fun c => is_digit c = true) ds ∧ s = ds ++ percent :: rest.
Proof.
  revert ds rest. induction s as [|c r IH]; intros ds rest; simpl; [done|].
  destruct (is_digit c) eqn:Hc; [|done].
  destruct (digits_percent r) as [[ds' rest']|] eqn:Hr.
  - intros [= <- <-]. destruct (IH _ _ eq_refl) as (_ & Hall & ->).
    split; [done|]. split; [by constructor|done].
  - destruct r as [|p rest0]; [done|].
    destruct (p =? percent) eqn:Hp; [|done].
    intros [= <- <-]. apply N.eqb_eq in Hp as ->.
    split; [done|]. split; [by repeat constructor|done].
Qed.

Lemma match_here_sound s g rest :
  match_here s = Some (g, rest) → token_at s [] g rest.
Proof.
  destruct s as [|c r]; simpl; [done|].
  destruct (uni_isspace c) eqn:Hc; [|done].
  intros H. apply digits_percent_sound in H as (Hne & Hall & ->).
  by exists c.
Qed.

Lemma all_matches_app pre s :
  ∃ before, all_matches (pre ++ s) = before ++ all_matches s.
Proof.
  induction pre as [|c pre [before IH]]; [by exists []|].
  change ((c :: pre) ++ s) with (c :: (pre ++ s)).
  cbn [all_matches].
  destruct (match_here (c :: pre ++ s)) as [[g ?]|].
  - exists (g :: before). by rewrite IH.
  - by exists before.
Qed.

Lemma all_matches_token_free s :
  (∀ pre ds post, ¬ token_at s pre ds post) → all_matches s = [].
Proof.
  induction s as [|c r IH]; intros Hfree; [done|].
  cbn [all_matches].
  destruct (match_here (c :: r)) as [[g rest]|] eqn:Hm.
  - apply match_here_sound in Hm. by destruct (Hfree [] g rest).
  - apply IH. intros pre ds post (sp & -> & Hsp & Hne & Hall).
    apply (Hfree (c :: pre) ds post). by exists sp.
Qed.

Section WithLaws.
Context {laws : RuntimeLaws rt}.

Lemma digit_not_space c : is_digit c = true → uni_isspace c = false.
Proof.
  unfold is_digit. destruct (uni_isspace c) eqn:Hs; [|done].
  by rewrite (space_not_decimal c Hs).
Qed.

Lemma percent_not_digit : is_digit percent = false.
Proof. unfold is_digit, percent. by rewrite percent_not_decimal. Qed.

Lemma digits_percent_complete ds rest :
  ds ≠ [] → Forall (fun c => is_digit c = true) ds →
  digits_percent (ds ++ percent :: rest) = Some (ds, rest).
Proof.
  induction ds as [|c ds IH]; [done|]. intros _ Hall.
  apply Forall_cons in Hall as [Hc Hall].
  change ((c :: ds) ++ percent :: rest) with (c :: (ds ++ percent :: rest)).
  cbn [digits_percent]. rewrite Hc.
  destruct ds as [|d ds].
  - cbn [app digits_percent]. rewrite percent_not_digit.
    by rewrite N.eqb_refl.
  - by rewrite IH.
Qed.

Lemma match_here_complete sp ds post :
  uni_isspace sp = true → ds ≠ [] →
  Forall (fun c => is_digit c = true) ds →
  match_here (sp :: ds ++ percent :: post) = Some (ds, post).
Proof.
  intros Hsp Hne Hall. cbn [match_here]. rewrite Hsp.
  by apply digits_percent_complete.
Qed.

(** A match never starts inside another one, so resuming the scan after
    a match loses nothing. *)
Lemma findall_from_all_matches s :
  ∀ k, Forall (fun c => uni_isspace c = false) (take k s) →
       findall_from k s = all_matches s.
Proof.
  induction s as [|c r IH]; intros k Hk; [done|].
  destruct k as [|k].
  - cbn [findall_from all_matches].
    destruct (match_here (c :: r)) as [[g rest]|] eqn:Hm.
    + f_equal. apply IH.
      apply match_here_sound in Hm as (sp & [= -> ->] & _ & _ & Hall).
      replace (S (length g)) with (length (g ++ [percent]))
        by (rewrite length_app; simpl; lia).
      replace (g ++ percent :: rest) with ((g ++ [percent]) ++ rest)
        by by rewrite <- app_assoc.
      rewrite take_app_length. apply Forall_app. split.
      * eapply Forall_impl; [exact Hall|]. apply digit_not_space.
      * repeat constructor. apply percent_not_space.
    + apply IH. constructor.
  - cbn [findall_from all_matches]. simpl in Hk.
    apply Forall_cons in Hk as [Hc Hk].
    cbn [match_here]. rewrite Hc. by apply IH.
Qed.

(** [findall] ends with the token that starts last. *)
Lemma findall_last_token text ds :
  last_token text ds → last (findall text) = Some ds.
Proof.
  intros (pre & post & (sp & -> & Hsp & Hne & Hall) & Hmax).
  unfold findall. rewrite findall_from_all_matches by constructor.
  destruct (all_matches_app pre (sp :: ds ++ percent :: post)) as [b ->].
  cbn [all_matches]. rewrite match_here_complete by done.
  rewrite all_matches_token_free; [by rewrite last_snoc|].
  intros pre' ds' post' (sp' & Heq & Hsp' & Hne' & Hall').
  assert (token_at (pre ++ sp :: ds ++ percent :: post)
            (pre ++ sp :: pre') ds' post') as Htok.
  { exists sp'. rewrite Heq. by rewrite <- app_assoc. }
  apply Hmax in Htok. rewrite length_app in Htok. simpl in Htok. lia.
Qed.

Lemma findall_token_free text :
  token_free text → findall text = [].
Proof.
  intros Hfree. unfold findall.
  rewrite findall_from_all_matches by constructor.
  by apply all_matches_token_free.
Qed.
End WithLaws.
End Tokens.

Section TokensIntro.
Context `{rt : Runtime} {laws : RuntimeLaws rt}.

Lemma all_matches_complete t pre ds post :
  token_at t pre ds post → all_matches t ≠ [].
Proof.
  intros (sp & -> & Hsp & Hne & Hall).
  destruct (all_matches_app pre (sp :: ds ++ percent :: post)) as [b ->].
  cbn [all_matches]. rewrite match_here_complete by done.
  by destruct b.
Qed.

(** A way to exhibit the last token of a given text: split the text at a
    token and scan what follows it. *)
Lemma last_token_intro pre sp ds post :
  uni_isspace sp = true → ds ≠ [] →
  Forall (fun c => is_digit c = true) ds →
  all_matches (ds ++ percent :: post) = [] →
  last_token (pre ++ sp :: ds ++ percent :: post) ds.
Proof.
  intros Hsp Hne Hall Hrest. exists pre, post. split; [by exists sp|].
  intros pre' ds' post' (sp' & Heq & Hsp' & Hne' & Hall').
  destruct (decide (length pre' ≤ length pre)%nat) as [|Hgt]; [done|].
  exfalso.
  assert (pre' = pre ++ sp :: drop (S (length pre)) pre'
          ∧ ds ++ percent :: post
            = drop (S (length pre)) pre' ++ sp' :: ds' ++ percent :: post')
    as [_ Htail].
  { assert (take (length pre) pre' = pre) as Htake.
    { apply (f_equal (take (length pre))) in Heq.
      rewrite take_app_length in Heq.
      rewrite take_app_le in Heq by lia. done. }
    assert (drop (length pre) pre' ++ sp' :: ds' ++ percent :: post'
            = sp :: ds ++ percent :: post) as Hdrop.
    { apply (f_equal (drop (length pre))) in Heq.
      rewrite drop_app_length in Heq.
      rewrite drop_app_le in Heq by lia. done. }
    destruct (drop (length pre) pre') as [|x rest] eqn:Hd.
    { apply (f_equal length) in Hd. rewrite length_drop in Hd.
      simpl in Hd. lia. }
    simpl in Hdrop. injection Hdrop as -> Hrest'.
    assert (drop (S (length pre)) pre' = rest) as ->.
    { replace (S (length pre)) with (length pre + 1)%nat by lia.
      rewrite <- drop_drop. by rewrite Hd. }
    split; [|done].
    rewrite <- (take_drop (length pre) pre') at 1. by rewrite Htake, Hd. }
  eapply all_matches_complete; [|exact Hrest].
  exists sp'. by rewrite Htail.
Qed.
End TokensIntro.

Global Instance posix_ascii_laws : RuntimeLaws posix_ascii.
Proof.
  split.
  - intros c. simpl. unfold ascii_isspace, ascii_decimal.
    destruct (48 <=? c) eqn:H1, (c <=? 57) eqn:H2; simpl; try done.
    apply N.leb_le in H1, H2.
    destruct (9 <=? c) eqn:H3, (c <=? 13) eqn:H4, (28 <=? c) eqn:H5,
      (c <=? 32) eqn:H6; simpl; try done;
      repeat match goal with
             | H : (_ <=? _) = true |- _ => apply N.leb_le in H
             end; lia.
  - reflexivity.
  - reflexivity.
  - reflexivity.
  - reflexivity.
Qed.

(** ** [read_progress]: which token it reports, and how *)

Section ReadProgressFacts.
Context `{rt : Runtime} {laws : RuntimeLaws rt} {S : Type}.
Variable update_callback : pyfloat → S → S * result unit.

Lemma py_int_accepts ds : int_accepts ds → py_int ds = Ok (digits_value ds).
Proof.
  unfold int_accepts, py_int. intros [H|H].
  - rewrite H. done.
  - destruct (0 <? int_max_str_digits)%nat; [|done].
    destruct (int_max_str_digits <? length ds)%nat eqn:Hlt; [|done].
    apply Nat.ltb_lt in Hlt. lia.
Qed.

Lemma py_int_rejects ds :
  ¬ int_accepts ds →
  py_int ds = Raise (IntDigitLimit int_max_str_digits (length ds)).
Proof.
  unfold int_accepts, py_int. intros H.
  destruct (0 <? int_max_str_digits)%nat eqn:H0.
  - destruct (int_max_str_digits <? length ds)%nat eqn:Hlt; [done|].
    apply Nat.ltb_ge in Hlt. exfalso. apply H. by right.
  - apply Nat.ltb_ge in H0. exfalso. apply H. left. lia.
Qed.

Lemma digits_value_nonneg ds : (0 <= digits_value ds)%Z.
Proof.
  unfold digits_value.
  assert (∀ acc, (0 <= acc)%Z →
            (0 <= fold_left (λ acc c, 10 * acc + Z.of_N (digit_value c)) ds acc)%Z)
    as H; [|by apply H].
  induction ds as [|c ds IH]; intros acc Hacc; [done|].
  simpl. apply IH. lia.
Qed.

Lemma truediv_100_accepts n :
  (0 <= n)%Z → float_accepts n →
  ∃ v, truediv_100 n = Ok v ∧ rounds (n # 100) v ∧ (0 <= v)%Q.
Proof.
  unfold float_accepts, truediv_100. intros Hn Hlim.
  destruct (Z.eq_dec n 0%Z) as [->|Hn0].
  { exists 0%Q. split; [done|]. split; [by split|done]. }
  assert (0 < n # 100)%Q as Hx by (unfold Qlt; simpl; lia).
  assert (n # 100 < inject_Z float_limit)%Q as Hx'
    by (unfold Qlt; simpl; lia).
  destruct (binary64_finite _ Hx Hx') as (r & Hr & _).
  rewrite Hr. exists r. split; [done|].
  assert (2 ^ (-1022) <= n # 100)%Q as Hnormal.
  { apply Qle_trans with (1 # 100)%Q; [by apply Qle_bool_iff|].
    unfold Qle. simpl. lia. }
  split; [by apply binary64_relative|].
  eapply binary64_nonneg; [|exact Hr]. by apply Qlt_le_weak.
Qed.

Lemma percent_accepts_float n : percent_accepts n → float_accepts n.
Proof.
  unfold percent_accepts, float_accepts.
  assert (2 ^ 1024 - 2 ^ 972 < 100 * float_limit)%Z by done. lia.
Qed.

Lemma truediv_100_overflows n :
  (100 * float_limit <= n)%Z → truediv_100 n = Raise OverflowError.
Proof.
  intros Hn. unfold truediv_100. rewrite binary64_infinite; [done|].
  unfold Qle. simpl. lia.
Qed.

(** The value found in the last token goes to the callback, and is
    returned when the callback returns. *)
Lemma read_progress_at_last_token (q : ProgressParser) (s : S) ds v :
  last_token (captured_content q ++ buffer q) ds →
  latest_progress ds = Ok v →
  read_progress update_callback q s
  = (drain q, (update_callback v s).1, _ ← (update_callback v s).2; Ok v).
Proof.
  intros Hlast Hv. unfold read_progress. cbn [drain captured_content].
  rewrite (findall_last_token _ _ Hlast), Hv.
  by destruct (update_callback v s).
Qed.

Lemma latest_progress_accepts ds :
  int_accepts ds → float_accepts (digits_value ds) →
  ∃ v, latest_progress ds = Ok v ∧ truediv_100 (digits_value ds) = Ok v
       ∧ rounds (digits_value ds # 100) v ∧ (0 <= v)%Q.
Proof.
  intros Hint Hfloat.
  destruct (truediv_100_accepts _ (digits_value_nonneg ds) Hfloat)
    as (v & Hv & Hnear & Hpos).
  exists v. unfold latest_progress. rewrite (py_int_accepts _ Hint).
  by cbn [mbind result_bind].
Qed.

(** The bounds in units of [2^970]. *)
Lemma percent_bounds :
  (inject_Z (2 ^ 1024 - 2 ^ 972) == 18014398509481980 * 2 ^ 970)%Q
  ∧ (inject_Z (2 ^ 1024 + 2 ^ 971) == 18014398509481986 * 2 ^ 970)%Q
  ∧ (inject_Z float_limit == 18014398509481983 * 2 ^ 970)%Q.
Proof. repeat split; by vm_compute. Qed.

(** Below [2^1024 - 2^972] the product [value * 100] is finite, so the
    method sets the status text and returns. *)
Lemma percent_of_accepts n v :
  (0 <= n)%Z → percent_accepts n → truediv_100 n = Ok v →
  ∃ percent, percent_of v = Ok percent.
Proof.
  unfold percent_accepts. intros Hn Hlim Hv.
  destruct (truediv_100_accepts n Hn (percent_accepts_float n Hlim))
    as (v' & Hv' & [Hlo Hhi] & Hpos).
  rewrite Hv in Hv'. injection Hv' as <-.
  unfold percent_of, float_mul.
  destruct (Z.eq_dec n 0%Z) as [->|Hn0].
  { injection Hv as <-. by eexists. }
  assert (0 < n # 100)%Q as Hx by (unfold Qlt; simpl; lia).
  assert ((n # 100) * 100 == inject_Z n)%Q as Hn100
    by (rewrite Qmake_Qdiv; field).
  destruct percent_bounds as (Hb & _ & HL).
  rewrite Zlt_Qlt, Hb in Hlim.
  pose proof (pow2_pos 970) as H970.
  set (x := (n # 100)%Q) in *. set (N := inject_Z n) in *.
  set (L := inject_Z float_limit) in *. set (A := (2 ^ 970)%Q) in *.
  assert (0 < v * 100)%Q as Hy by lra.
  assert (v * 100 < L)%Q as Hy' by lra.
  destruct (binary64_finite _ Hy Hy') as (r & -> & _).
  by eexists.
Qed.

(** From [2^1024 + 2^971] on the product is the infinity, and [int()]
    raises. *)
Lemma percent_of_overflows n v :
  percent_overflows n → truediv_100 n = Ok v →
  percent_of v = Raise InfinityToInt.
Proof.
  unfold percent_overflows. intros Hlim Hv.
  assert (0 < 2 ^ 1024 + 2 ^ 971)%Z as Hpos by done.
  assert (2 ^ (-1022) <= n # 100)%Q as Hnormal.
  { apply Qle_trans with (1 # 100)%Q; [by apply Qle_bool_iff|].
    unfold Qle. simpl. lia. }
  unfold truediv_100 in Hv.
  destruct (binary64 (n # 100)) as [r|] eqn:Hr; [|done]. injection Hv as ->.
  destruct (binary64_relative _ _ Hnormal Hr) as [Hlo _].
  assert ((n # 100) * 100 == inject_Z n)%Q as Hn100
    by (rewrite Qmake_Qdiv; field).
  destruct percent_bounds as (_ & Hb & HL).
  rewrite Zle_Qle, Hb in Hlim.
  pose proof (pow2_pos 970) as H970.
  unfold percent_of, float_mul. rewrite binary64_infinite; [done|].
  set (x := (n # 100)%Q) in *. set (N := inject_Z n) in *.
  set (L := inject_Z float_limit) in *. set (A := (2 ^ 970)%Q) in *.
  lra.
Qed.

Lemma handle_progress_update_accepts n v (a : App) :
  (0 <= n)%Z → percent_accepts n → truediv_100 n = Ok v →
  ∃ percent,
    percent_of v = Ok percent
    ∧ _handle_progress_update v a
      = (configure_status (StProgress percent) (after (CbProgressBarSet v) a),
         Ok ()).
Proof.
  intros Hn Hlim Hv.
  destruct (percent_of_accepts n v Hn Hlim Hv) as [percent Hp].
  exists percent. split; [done|]. unfold _handle_progress_update.
  by rewrite Hp.
Qed.

(** C5 (as amended).  When the accumulated text has a percentage token,
    [read_progress] works on the last one in document order, whatever
    tokens come before it, and drains the buffer into the accumulated
    text.  When that token is a number that [int()] accepts and whose
    hundredth is within the range of floats, the number divided by 100,
    as a float, goes to the callback and is returned when the callback
    returns; an exception of the callback propagates.  The callback of
    the application returns for every such number below [2^1024 - 2^972]
    and raises for every one from [2^1024 + 2^971] on.  When the hundredth
    is beyond the range of floats the division raises, and when the token
    has more digits than [int()] accepts, [int()] raises; the callback is
    not called then. *)
Theorem read_progress_returns_last_token (q : ProgressParser) (s : S) ds :
  last_token (captured_content q ++ buffer q) ds →
  (int_accepts ds → float_accepts (digits_value ds) →
   ∃ v,
     truediv_100 (digits_value ds) = Ok v
     ∧ rounds (digits_value ds # 100) v
     ∧ read_progress update_callback q s
       = (drain q, (update_callback v s).1,
          _ ← (update_callback v s).2; Ok v)
     ∧ (percent_accepts (digits_value ds) →
        ∀ a : App,
          read_progress _handle_progress_update q a
          = (drain q, (_handle_progress_update v a).1, Ok v))
     ∧ (percent_overflows (digits_value ds) →
        ∀ a : App,
          read_progress _handle_progress_update q a
          = (drain q, after (CbProgressBarSet v) a, Raise InfinityToInt)))
  ∧ (int_accepts ds → ¬ float_accepts (digits_value ds) →
     read_progress update_callback q s = (drain q, s, Raise OverflowError))
  ∧ (¬ int_accepts ds →
     read_progress update_callback q s
     = (drain q, s, Raise (IntDigitLimit int_max_str_digits (length ds)))).
Proof.
  intros Hlast.
  assert (∀ {T} (cb : pyfloat → T → T * result unit) t,
            read_progress cb q t
            = match latest_progress ds with
              | Ok v => let '(t', returned) := cb v t in
                        (drain q, t', _ ← returned; Ok v)
              | Raise e => (drain q, t, Raise e)
              end) as Hread.
  { intros T cb t. unfold read_progress. cbn [drain captured_content].
    by rewrite (findall_last_token _ _ Hlast). }
  split; [|split].
  - intros Hint Hfloat.
    destruct (latest_progress_accepts ds Hint Hfloat)
      as (v & Hlatest & Hv & Hnear & _).
    exists v. split; [done|]. split; [done|]. split; [|split].
    + rewrite Hread, Hlatest. by destruct (update_callback v s).
    + intros Hper a. rewrite Hread, Hlatest.
      by destruct (handle_progress_update_accepts _ v a
                     (digits_value_nonneg ds) Hper Hv) as (percent & _ & ->).
    + intros Hover a. rewrite Hread, Hlatest. unfold _handle_progress_update.
      by rewrite (percent_of_overflows _ v Hover Hv).
  - intros Hint Hfloat. rewrite Hread. unfold latest_progress.
    rewrite (py_int_accepts _ Hint). cbn [mbind result_bind].
    rewrite truediv_100_overflows; [done|]. unfold float_accepts in Hfloat. lia.
  - intros Hint. rewrite Hread. unfold latest_progress.
    by rewrite (py_int_rejects _ Hint).
Qed.

(** C6 (as amended).  When the last token is above 100, is accepted by
    [int()] and its hundredth is within the range of floats, the value
    handed to the callback, and returned when the callback returns, is
    that number divided by 100, a fraction above 1: nothing clamps it.
    With the callback of the application that fraction is scheduled for
    the progress bar, and the call returns it for a number below
    [2^1024 - 2^972]; from [2^1024 + 2^971] on the callback raises and
    nothing is returned, and when the hundredth is beyond the range of
    floats the division raises. *)
Theorem read_progress_does_not_clamp (q : ProgressParser) (s : S) ds :
  last_token (captured_content q ++ buffer q) ds →
  int_accepts ds → (100 < digits_value ds)%Z →
  (float_accepts (digits_value ds) →
   ∃ v,
     truediv_100 (digits_value ds) = Ok v
     ∧ (1 < v)%Q
     ∧ read_progress update_callback q s
       = (drain q, (update_callback v s).1,
          _ ← (update_callback v s).2; Ok v)
     ∧ (∀ a : App,
          CbProgressBarSet v
          ∈ pending (read_progress _handle_progress_update q a).1.2)
     ∧ (percent_accepts (digits_value ds) →
        ∀ a : App, (read_progress _handle_progress_update q a).2 = Ok v)
     ∧ (percent_overflows (digits_value ds) →
        ∀ a : App,
          (read_progress _handle_progress_update q a).2
          = Raise InfinityToInt))
  ∧ (¬ float_accepts (digits_value ds) →
     read_progress update_callback q s = (drain q, s, Raise OverflowError)).
Proof.
  intros Hlast Hint Hbig. split.
  - intros Hfloat.
    destruct (latest_progress_accepts ds Hint Hfloat)
      as (v & Hlatest & Hv & [Hlo _] & _).
    assert (∀ a : App,
              read_progress _handle_progress_update q a
              = (drain q, (_handle_progress_update v a).1,
                 _ ← (_handle_progress_update v a).2; Ok v)) as Hread.
    { intros a. unfold read_progress. cbn [drain captured_content].
      rewrite (findall_last_token _ _ Hlast), Hlatest.
      by destruct (_handle_progress_update v a). }
    exists v. split; [done|]. split; [|split; [|split; [|split]]].
    + assert (101 # 100 <= digits_value ds # 100)%Q as H101
        by (unfold Qle; simpl; lia).
      set (x := (digits_value ds # 100)%Q) in *. lra.
    + exact (read_progress_at_last_token q s ds v Hlast Hlatest).
    + intros a. rewrite Hread. unfold _handle_progress_update.
      destruct (percent_of v); cbn; apply elem_of_app; right;
        by apply list_elem_of_singleton.
    + intros Hper a. rewrite Hread.
      by destruct (handle_progress_update_accepts _ v a
                     (digits_value_nonneg ds) Hper Hv) as (percent & _ & ->).
    + intros Hover a. rewrite Hread. unfold _handle_progress_update.
      by rewrite (percent_of_overflows _ v Hover Hv).
  - intros Hfloat. unfold read_progress. cbn [drain captured_content].
    rewrite (findall_last_token _ _ Hlast). unfold latest_progress.
    rewrite (py_int_accepts _ Hint). cbn [mbind result_bind].
    rewrite truediv_100_overflows; [done|]. unfold float_accepts in Hfloat. lia.
Qed.

(** X4.  Without a token in the accumulated text the result is 0.0, the
    callback is not called and the buffer is drained. *)
Lemma read_progress_no_token (q : ProgressParser) (s : S) :
  token_free (captured_content q ++ buffer q) →
  read_progress update_callback q s = (drain q, s, Ok 0%Q).
Proof.
  intros Hfree. unfold read_progress. cbn [drain captured_content].
  by rewrite (findall_token_free _ Hfree).
Qed.
End ReadProgressFacts.

(** ** [_normalize_path]: what [strip('{}')] and [normpath] remove *)

Section Strip.
Context `{rt : Runtime}.

Lemma lstrip_app_chars chars b s :
  Forall (fun c => in_chars chars c = true) b →
  lstrip chars (b ++ s) = lstrip chars s.
Proof.
  induction 1 as [|c b Hc _ IH]; [done|]. simpl. by rewrite Hc.
Qed.

Lemma lstrip_all_chars chars b :
  Forall (fun c => in_chars chars c = true) b → lstrip chars b = [].
Proof.
  intros H. rewrite <- (app_nil_r b). by rewrite lstrip_app_chars.
Qed.

(** A character outside [chars] stops [lstrip], also from the far end. *)
Lemma lstrip_keeps_last chars x c :
  in_chars chars c = false → ∃ y, lstrip chars (x ++ [c]) = y ++ [c].
Proof.
  intros Hc. induction x as [|d x [y IH]].
  - exists []. simpl. by rewrite Hc.
  - simpl. destruct (in_chars chars d).
    + by exists y.
    + by exists (d :: x).
Qed.

Lemma lstrip_app_keep chars s t :
  lstrip chars s ≠ [] → lstrip chars (s ++ t) = lstrip chars s ++ t.
Proof.
  induction s as [|c s IH]; [done|]. simpl.
  destruct (in_chars chars c); [exact IH|done].
Qed.

Lemma rstrip_app_chars chars s b :
  Forall (fun c => in_chars chars c = true) b →
  rstrip chars (s ++ b) = rstrip chars s.
Proof.
  intros H. unfold rstrip. rewrite rev_app_distr.
  rewrite lstrip_app_chars; [done|]. apply Forall_forall. intros c Hc.
  apply list_elem_of_In, in_rev, list_elem_of_In in Hc.
  by apply (proj1 (Forall_forall _ _) H).
Qed.

Lemma strip_app_chars_r chars s b :
  Forall (fun c => in_chars chars c = true) b →
  strip chars (s ++ b) = strip chars s.
Proof.
  intros H. unfold strip.
  destruct (lstrip chars s) as [|c r] eqn:Hs.
  - assert (lstrip chars (s ++ b) = []) as ->; [|done].
    clear -H Hs. induction s as [|d s IH]; simpl in *.
    + by apply lstrip_all_chars.
    + destruct (in_chars chars d); [by apply IH|done].
  - rewrite lstrip_app_keep by by rewrite Hs.
    rewrite Hs. by apply rstrip_app_chars.
Qed.

(** Wrapping in characters of [chars] does not change the result. *)
Lemma strip_wrapped chars pre s post :
  Forall (fun c => in_chars chars c = true) pre →
  Forall (fun c => in_chars chars c = true) post →
  strip chars (pre ++ s ++ post) = strip chars s.
Proof.
  intros Hpre Hpost. rewrite app_assoc. rewrite strip_app_chars_r by done.
  unfold strip. by rewrite lstrip_app_chars.
Qed.

(** A first character outside [chars] stays first, a last one last. *)
Lemma strip_keeps_first chars c r :
  in_chars chars c = false → ∃ r', strip chars (c :: r) = c :: r'.
Proof.
  intros Hc. unfold strip. cbn [lstrip]. rewrite Hc. unfold rstrip.
  cbn [rev]. destruct (lstrip_keeps_last chars (rev r) c Hc) as [y ->].
  exists (rev y). by rewrite rev_app_distr.
Qed.

Lemma strip_keeps_last chars r c :
  in_chars chars c = false → ∃ r', strip chars (r ++ [c]) = r' ++ [c].
Proof.
  intros Hc. unfold strip.
  destruct (lstrip_keeps_last chars r c Hc) as [y ->].
  exists y. unfold rstrip. rewrite rev_app_distr. cbn [rev app lstrip].
  rewrite Hc. cbn [rev]. by rewrite rev_involutive.
Qed.
End Strip.

(** The shape of what [posixpath.normpath] returns: at most two leading
    separators, then non-empty components without a separator inside,
    joined by single separators. *)

Lemma split_slash_no_slash s : Forall (fun c => slash ∉ c) (split_slash s).
Proof.
  induction s as [|c r IH]; simpl.
  - repeat constructor. apply not_elem_of_nil.
  - destruct (c =? slash) eqn:Hc.
    + constructor; [apply not_elem_of_nil|done].
    + apply N.eqb_neq in Hc. destruct (split_slash r) as [|h t].
      * repeat constructor. intros Hin.
        apply list_elem_of_singleton in Hin. congruence.
      * apply Forall_cons in IH as [Hh Ht]. constructor; [|done].
        intros Hin. apply elem_of_cons in Hin as [Heq|Hin]; [congruence|done].
Qed.

Lemma norm_comps_components k acc comps :
  Forall component acc → Forall (fun c => slash ∉ c) comps →
  Forall component (norm_comps k acc comps).
Proof.
  revert acc. induction comps as [|comp cs IH]; intros acc Hacc Hcs; simpl.
  - apply Forall_forall. intros c Hc.
    apply list_elem_of_In, in_rev, list_elem_of_In in Hc.
    by apply (proj1 (Forall_forall _ _) Hacc).
  - apply Forall_cons in Hcs as [Hcomp Hcs].
    destruct (bool_decide (comp = [])) eqn:He.
    { simpl. by apply IH. }
    apply bool_decide_eq_false in He.
    destruct (bool_decide (comp = dot)); simpl; [by apply IH|].
    match goal with
    | |- Forall _ (if ?b then _ else _) => destruct b
    end.
    + apply IH; [|done]. by constructor.
    + apply IH; [|done]. destruct acc as [|top acc]; [done|].
      by apply Forall_cons in Hacc as [_ Hacc].
Qed.

Lemma posix_normpath_canonical path :
  ∃ k comps, (k ≤ 2)%nat ∧ Forall component comps
             ∧ posix_normpath path = repeat slash k ++ join_slash comps.
Proof.
  assert (Forall component [dot]) as Hdot.
  { repeat constructor; [done|]. intros Hin.
    apply list_elem_of_singleton in Hin. discriminate. }
  destruct path as [|c r].
  { exists 0%nat, [dot]. split; [lia|]. by split. }
  unfold posix_normpath.
  set (k := if startswith (c :: r) [slash] then _ else _).
  set (comps := norm_comps k [] (split_slash (c :: r))).
  assert (k ≤ 2)%nat as Hk.
  { subst k. repeat match goal with |- context [if ?b then _ else _] =>
                             destruct b end; lia. }
  assert (Forall component comps) as Hcomps.
  { apply norm_comps_components; [constructor|apply split_slash_no_slash]. }
  destruct (repeat slash k ++ join_slash comps) as [|x out] eqn:Hout.
  - exists 0%nat, [dot]. split; [lia|]. by split.
  - exists k, comps. by rewrite Hout.
Qed.

(** ** [str.split()] at a whitespace character *)

Section Split.
Context `{rt : Runtime}.

Lemma split_from_at_space x : ∀ cur sp y,
  uni_isspace sp = true →
  split_from cur (x ++ sp :: y) = split_from cur x ++ split y.
Proof.
  induction x as [|c x IH]; intros cur sp y Hsp.
  - simpl. rewrite Hsp. by destruct cur.
  - simpl. destruct (uni_isspace c).
    + destruct cur; by rewrite IH.
    + by rewrite IH.
Qed.

Lemma split_from_nonempty s : ∀ cur,
  cur ≠ [] ∨ has_visible s → split_from cur s ≠ [].
Proof.
  induction s as [|c r IH]; intros cur H.
  - destruct H as [H|H]; [by destruct cur|by apply Exists_nil in H].
  - simpl. destruct (uni_isspace c) eqn:Hc.
    + destruct cur; [|done]. apply IH. right.
      destruct H as [H|H]; [done|].
      apply Exists_cons in H as [H|H]; [congruence|done].
    + apply IH. by left.
Qed.

Lemma split_from_no_space s : ∀ cur,
  no_space cur → Forall no_space (split_from cur s).
Proof.
  assert (∀ cur, no_space cur → no_space (rev cur)) as Hrev.
  { intros cur H. apply Forall_forall. intros c Hc.
    apply list_elem_of_In, in_rev, list_elem_of_In in Hc.
    by apply (proj1 (Forall_forall _ _) H). }
  induction s as [|c r IH]; intros cur Hcur; simpl.
  - destruct cur; [constructor|]. repeat constructor. by apply Hrev.
  - destruct (uni_isspace c) eqn:Hc.
    + destruct cur.
      * apply IH. constructor.
      * constructor; [by apply Hrev|]. apply IH. constructor.
    + apply IH. by constructor.
Qed.
End Split.

(** ** Enqueueing *)

Section EnqueueFacts.
Context `{rt : Runtime} {laws : RuntimeLaws rt}.

Lemma is_brace_in_chars c : is_brace c → in_chars braces c = true.
Proof. by intros [-> | ->]. Qed.

Lemma space_not_brace c : uni_isspace c = true → in_chars braces c = false.
Proof.
  intros Hc. unfold in_chars, braces. cbn [existsb].
  destruct (c =? 123) eqn:H1.
  { apply N.eqb_eq in H1 as ->. by rewrite lbrace_not_space in Hc. }
  destruct (c =? 125) eqn:H2; [|done].
  apply N.eqb_eq in H2 as ->. by rewrite rbrace_not_space in Hc.
Qed.

Lemma _normalize_path_wrapped pre raw post :
  Forall is_brace pre → Forall is_brace post →
  _normalize_path (pre ++ raw ++ post) = _normalize_path raw.
Proof.
  intros Hpre Hpost. unfold _normalize_path.
  rewrite strip_wrapped; [done| |];
    (eapply Forall_impl; [eassumption|apply is_brace_in_chars]).
Qed.

(** C10.  A drop whose payload is one string is split at whitespace before
    anything else: when the string has a whitespace character with visible
    characters on both sides, [_enqueue_files] receives at least two
    fragments, each without whitespace (so none is the dropped string),
    and runs the loop body on each of them in turn. *)
Theorem handle_dropped_files_splits_at_space x sp y (a : App) :
  uni_isspace sp = true → has_visible x → has_visible y →
  let dropped := x ++ sp :: y in
  let fragments := split dropped in
  _handle_dropped_files (DataStr dropped) a
  = _process_next_task (fold_left enqueue_path fragments a)
  ∧ fragments = split x ++ split y
  ∧ (2 ≤ length fragments)%nat
  ∧ Forall no_space fragments
  ∧ dropped ∉ fragments.
Proof.
  intros Hsp Hx Hy dropped fragments.
  assert (fragments = split x ++ split y) as Hfr
    by by apply split_from_at_space.
  assert (Forall no_space fragments) as Hns
    by (apply split_from_no_space; constructor).
  split; [done|]. split; [done|]. split; [|split; [done|]].
  - rewrite Hfr, length_app.
    assert (split x ≠ []) by (apply split_from_nonempty; by right).
    assert (split y ≠ []) by (apply split_from_nonempty; by right).
    destruct (split x), (split y); simpl; try done; lia.
  - intros Hin. apply (proj1 (Forall_forall _ _) Hns) in Hin.
    unfold no_space, dropped in Hin. apply Forall_app in Hin as [_ Hin].
    apply Forall_cons in Hin as [Hin _]. congruence.
Qed.

(** C7.  When the normalized path does not exist, or its lower-cased form
    ends with neither [.wav] nor [.mp3], validation raises, the loop body
    reports the error, and the queue is the one before the call. *)
Theorem enqueue_path_rejects_invalid (a : App) raw :
  fs_exists a (_normalize_path raw) = false
  ∨ endswith_any (str_lower (_normalize_path raw)) SUPPORTED_FORMATS = false →
  ∃ e, _validate_audio_file a (_normalize_path raw) = Raise e
       ∧ (e = FileNotFoundError (_normalize_path raw)
          ∨ e = UnsupportedFormat (_normalize_path raw))
       ∧ enqueue_path a raw = _show_error (ErrText e) a
       ∧ queue (enqueue_path a raw) = queue a
       ∧ in_queue (_normalize_path raw) (queue (enqueue_path a raw))
         = in_queue (_normalize_path raw) (queue a)
       ∧ errors (gui (enqueue_path a raw)) = errors (gui a) ++ [ErrText e]
       ∧ lbl_status (gui (enqueue_path a raw)) = StError (ErrText e).
Proof.
  intros H. unfold enqueue_path, _validate_audio_file.
  destruct (fs_exists a (_normalize_path raw)) eqn:Hex; cbn [negb].
  - destruct H as [H|H]; [done|]. rewrite H. cbn [negb].
    eexists. split; [done|]. split; [by right|]. done.
  - eexists. split; [done|]. split; [by left|]. done.
Qed.

(** C2 (as amended).  When the normalized path is already the path of a
    pending entry, the loop body leaves the queue as it is; and when that
    path also passes validation, it changes nothing at all: no entry, no
    error message.  The job in [current_task] is not looked at. *)
Theorem enqueue_path_pending_duplicate (a : App) raw :
  in_queue (_normalize_path raw) (queue a) = true →
  queue (enqueue_path a raw) = queue a
  ∧ (_validate_audio_file a (_normalize_path raw) = Ok () →
     enqueue_path a raw = a).
Proof.
  intros Hin. unfold enqueue_path.
  destruct (_validate_audio_file a (_normalize_path raw)) as [[]|e].
  - rewrite Hin. done.
  - done.
Qed.
End EnqueueFacts.

(** ** [_normalize_path] on POSIX *)

Lemma join_slash_last l x : ∃ before, join_slash (l ++ [x]) = before ++ x.
Proof.
  induction l as [|c l [before IH]]; [by exists []|].
  change ((c :: l) ++ [x]) with (c :: (l ++ [x])).
  destruct (l ++ [x]) as [|d r] eqn:Hl; [by destruct l|].
  change (join_slash (c :: d :: r)) with (c ++ slash :: join_slash (d :: r)).
  rewrite IH. exists (c ++ slash :: before). by rewrite <- app_assoc.
Qed.

Lemma split_slash_snoc r c :
  c ≠ slash → ∃ init l, split_slash (r ++ [c]) = init ++ [l ++ [c]].
Proof.
  intros Hc. induction r as [|x r (init & l & IH)].
  - exists [], []. cbn. by rewrite (proj2 (N.eqb_neq _ _) Hc).
  - cbn. destruct (x =? slash).
    + exists ([] :: init), l. by rewrite IH.
    + rewrite IH. destruct init as [|i init].
      * by exists [], (x :: l).
      * by exists ((x :: i) :: init), l.
Qed.

Lemma join_slash_first c h rest :
  ∃ r', join_slash ((c :: h) :: rest) = c :: r'.
Proof. destruct rest; cbn; eauto. Qed.

Lemma split_slash_first c r :
  c ≠ slash → ∃ h t, split_slash (c :: r) = (c :: h) :: t.
Proof.
  intros Hc. cbn. rewrite (proj2 (N.eqb_neq _ _) Hc).
  destruct (split_slash r) as [|h t]; eauto.
Qed.

(** A last component that is kept ends the result, whatever the
    components before it do. *)
Lemma norm_comps_last k comps last :
  last ≠ [] → last ≠ dot → last ≠ dotdot →
  ∀ acc, ∃ acc', norm_comps k acc (comps ++ [last]) = rev acc' ++ [last].
Proof.
  intros H1 H2 H3. induction comps as [|comp cs IH]; intros acc.
  - exists acc. cbn.
    rewrite (bool_decide_eq_false_2 _ H1), (bool_decide_eq_false_2 _ H2),
      (bool_decide_eq_false_2 _ H3).
    done.
  - cbn. repeat match goal with
                | |- context [if ?b then _ else _] => destruct b
                end; apply IH.
Qed.

(** Without a [..] component nothing is taken back. *)
Lemma norm_comps_no_dotdot k comps :
  dotdot ∉ comps →
  ∀ acc, norm_comps k acc comps = rev acc ++ filter kept comps.
Proof.
  induction comps as [|comp cs IH]; intros Hdd acc.
  - cbn. by rewrite app_nil_r.
  - apply not_elem_of_cons in Hdd as [Hne Hdd]. cbn [norm_comps].
    destruct (bool_decide (comp = [])) eqn:H1.
    { apply bool_decide_eq_true in H1. cbn [orb].
      rewrite filter_cons_False by (intros [? _]; done). by apply IH. }
    destruct (bool_decide (comp = dot)) eqn:H2.
    { apply bool_decide_eq_true in H2. cbn [orb].
      rewrite filter_cons_False by (intros [_ ?]; done). by apply IH. }
    apply bool_decide_eq_false in H1, H2. cbn [orb].
    rewrite (bool_decide_eq_false_2 (comp = dotdot)) by congruence.
    cbn [negb orb].
    rewrite filter_cons_True by done. rewrite IH by done.
    cbn [rev]. by rewrite <- app_assoc.
Qed.

Section NormalizePosix.
Context `{rt : Runtime} {laws : RuntimeLaws rt}.
Hypothesis on_posix : os_path_normpath = posix_normpath.
Hypothesis slash_not_space : uni_isspace slash = false.
Hypothesis dot_not_space : uni_isspace 46 = false.

Lemma space_not_slash c : uni_isspace c = true → c ≠ slash.
Proof. intros Hc ->. congruence. Qed.

Lemma space_not_dot c : uni_isspace c = true → c ≠ 46.
Proof. intros Hc ->. congruence. Qed.

Lemma _normalize_path_keeps_last raw c :
  uni_isspace c = true → ∃ r', _normalize_path (raw ++ [c]) = r' ++ [c].
Proof.
  intros Hc. unfold _normalize_path. rewrite on_posix.
  destruct (strip_keeps_last braces raw c (space_not_brace c Hc)) as [r ->].
  destruct (split_slash_snoc r c (space_not_slash c Hc)) as (init & l & Hsplit).
  assert (l ++ [c] ≠ []) as H1 by by destruct l.
  assert (l ++ [c] ≠ dot) as H2.
  { destruct l as [|? [|? ?]]; intros [=]. by apply (space_not_dot c). }
  assert (l ++ [c] ≠ dotdot) as H3.
  { destruct l as [|? [|? [|? ?]]]; intros [=]. by apply (space_not_dot c). }
  unfold posix_normpath. destruct (r ++ [c]) as [|x s] eqn:Hs; [by destruct r|].
  rewrite Hsplit.
  set (k := if startswith (x :: s) [slash] then _ else _).
  destruct (norm_comps_last k init (l ++ [c]) H1 H2 H3 []) as [acc' ->].
  destruct (join_slash_last (rev acc') (l ++ [c])) as [before Hj].
  unfold pystr in *. rewrite Hj.
  assert (repeat slash k ++ before ++ l ++ [c]
          = (repeat slash k ++ before ++ l) ++ [c]) as ->
    by by rewrite <- !app_assoc.
  exists (repeat slash k ++ before ++ l).
  by destruct (repeat slash k ++ before ++ l).
Qed.

Lemma posix_normpath_no_dotdot s :
  dotdot ∉ split_slash s →
  ∃ k, (k ≤ 2)%nat ∧ (k = 0%nat ↔ startswith s [slash] = false)
       ∧ posix_normpath s
         = let out := repeat slash k ++ join_slash (filter kept (split_slash s)) in
           if decide (out = []) then dot else out.
Proof.
  intros Hdd. destruct s as [|x s].
  { exists 0%nat. split; [lia|]. split; [done|]. cbn [split_slash].
    by rewrite filter_cons_False by (intros [? _]; done). }
  unfold posix_normpath.
  set (k := if startswith (x :: s) [slash] then _ else _).
  exists k. split; [|split].
  - subst k. repeat match goal with |- context [if ?b then _ else _] =>
                             destruct b end; lia.
  - subst k. destruct (startswith (x :: s) [slash]); [|done].
    split; [|done].
    by destruct (startswith (x :: s) [slash; slash]
                 && negb (startswith (x :: s) [slash; slash; slash])).
  - rewrite norm_comps_no_dotdot by done. cbn [rev app]. cbv zeta.
    by destruct (repeat slash k ++ join_slash (filter kept (split_slash (x :: s)))).
Qed.

Lemma _normalize_path_keeps_first c raw :
  uni_isspace c = true →
  dotdot ∉ split_slash (strip braces (c :: raw)) →
  ∃ r', _normalize_path (c :: raw) = c :: r'.
Proof.
  intros Hc Hdd. unfold _normalize_path. rewrite on_posix.
  destruct (strip_keeps_first braces c raw (space_not_brace c Hc)) as [r Hr].
  rewrite Hr in *.
  destruct (posix_normpath_no_dotdot _ Hdd) as (k & _ & [_ Hk] & ->).
  assert (k = 0%nat) as ->.
  { apply Hk. cbn [startswith]. apply andb_false_intro1. apply N.eqb_neq.
    intros Heq. by apply (space_not_slash c). }
  destruct (split_slash_first c r (space_not_slash c Hc)) as (h & t & ->).
  rewrite filter_cons_True.
  2: { split; [done|]. intros [= Heq _]. by apply (space_not_dot c). }
  cbn [repeat app]. cbv zeta.
  destruct (join_slash_first c h (filter kept t)) as [r' Hj].
  unfold pystr in *. rewrite Hj. rewrite decide_False by done. eauto.
Qed.

(** C9 (as amended).  On POSIX normalization removes the braces that
    surround a raw path, and only them: a path wrapped in braces gets the
    key of the bare path and is enqueued as the bare path is.  Whitespace
    is not removed: a whitespace character at the end of the raw path is
    the last character of the key, and one at the start is the first
    character of the key when the stripped path has no [..] component.
    The stripped string goes through [os.path.normpath]: the key is at
    most two leading separators followed by non-empty components joined
    by single separators, and without a [..] component these are the
    components of the stripped path that are neither empty nor [.], in
    their order. *)
Theorem normalize_path_removes_braces_only :
  (∀ pre raw post (a : App),
      Forall is_brace pre → Forall is_brace post →
      _normalize_path (pre ++ raw ++ post) = _normalize_path raw
      ∧ enqueue_path a (pre ++ raw ++ post) = enqueue_path a raw)
  ∧ (∀ raw c, uni_isspace c = true →
        ∃ r', _normalize_path (raw ++ [c]) = r' ++ [c])
  ∧ (∀ c raw, uni_isspace c = true →
        dotdot ∉ split_slash (strip braces (c :: raw)) →
        ∃ r', _normalize_path (c :: raw) = c :: r')
  ∧ (∀ raw, ∃ k comps,
        (k ≤ 2)%nat ∧ Forall component comps
        ∧ _normalize_path raw = repeat slash k ++ join_slash comps)
  ∧ (∀ raw, dotdot ∉ split_slash (strip braces raw) →
        ∃ k, (k ≤ 2)%nat
             ∧ (k = 0%nat ↔ startswith (strip braces raw) [slash] = false)
             ∧ _normalize_path raw
               = let out :=
                   repeat slash k
                   ++ join_slash (filter kept (split_slash (strip braces raw))) in
                 if decide (out = []) then dot else out).
Proof.
  split; [|split; [|split; [|split]]].
  - intros pre raw post a Hpre Hpost.
    assert (_normalize_path (pre ++ raw ++ post) = _normalize_path raw) as H
      by by apply _normalize_path_wrapped.
    split; [done|]. unfold enqueue_path. by rewrite H.
  - apply _normalize_path_keeps_last.
  - apply _normalize_path_keeps_first.
  - intros raw. unfold _normalize_path. rewrite on_posix.
    apply posix_normpath_canonical.
  - intros raw Hdd. unfold _normalize_path. rewrite on_posix.
    by apply posix_normpath_no_dotdot.
Qed.
End NormalizePosix.

(** ** The order in which jobs begin processing *)

Section Order.
Context `{rt : Runtime}.

Lemma in_queue_elem_of clean q :
  in_queue clean q = bool_decide (clean ∈ map path q).
Proof.
  induction q as [|t q IH]; [done|]. simpl. rewrite IH.
  unfold pystr_eqb.
  destruct (decide (path t = clean)) as [->|Hne].
  - rewrite bool_decide_eq_true_2 by done. simpl.
    symmetry. apply bool_decide_eq_true_2. apply elem_of_cons. by left.
  - rewrite (bool_decide_eq_false_2 (path t = clean)) by done. simpl.
    apply bool_decide_ext. rewrite elem_of_cons. intuition congruence.
Qed.

Lemma enqueue_path_frame a raw :
  workers (enqueue_path a raw) = workers a
  ∧ current_task (enqueue_path a raw) = current_task a
  ∧ fs_exists (enqueue_path a raw) = fs_exists a
  ∧ running (enqueue_path a raw) = running a
  ∧ model (enqueue_path a raw) = model a
  ∧ model_ready (enqueue_path a raw) = model_ready a.
Proof.
  unfold enqueue_path.
  destruct (_validate_audio_file a (_normalize_path raw)) as [[]|e]; [|done].
  by destruct (negb _).
Qed.

Lemma enqueue_path_queue a raw :
  map path (queue (enqueue_path a raw))
  = map path (queue a) ++ accepted a (map path (queue a)) [raw].
Proof.
  unfold enqueue_path. cbn [accepted]. unfold is_valid.
  rewrite in_queue_elem_of.
  destruct (_validate_audio_file a (_normalize_path raw)) as [[]|e].
  - cbn [andb]. destruct (negb _); cbn.
    + by rewrite map_app.
    + by rewrite app_nil_r.
  - cbn. by rewrite app_nil_r.
Qed.

Lemma accepted_fs a a' waiting raws :
  fs_exists a' = fs_exists a → accepted a' waiting raws = accepted a waiting raws.
Proof.
  intros Hfs. revert waiting. induction raws as [|raw r IH]; intros waiting; [done|].
  cbn [accepted]. unfold is_valid, _validate_audio_file. rewrite Hfs.
  by rewrite !IH.
Qed.

Lemma accepted_app a waiting l1 l2 :
  accepted a waiting (l1 ++ l2)
  = accepted a waiting l1 ++ accepted a (waiting ++ accepted a waiting l1) l2.
Proof.
  revert waiting. induction l1 as [|raw r IH]; intros waiting.
  - simpl. by rewrite app_nil_r.
  - cbn [app accepted].
    destruct (is_valid a (_normalize_path raw)
              && negb (bool_decide (_normalize_path raw ∈ waiting))).
    + rewrite IH. cbn [app]. by rewrite <- app_assoc.
    + apply IH.
Qed.

Lemma enqueue_files_loop raws : ∀ a,
  let a' := fold_left enqueue_path raws a in
  map path (queue a') = map path (queue a) ++ accepted a (map path (queue a)) raws
  ∧ workers a' = workers a ∧ current_task a' = current_task a
  ∧ fs_exists a' = fs_exists a ∧ running a' = running a
  ∧ model a' = model a ∧ model_ready a' = model_ready a.
Proof.
  induction raws as [|raw r IH]; intros a.
  - simpl. by rewrite app_nil_r.
  - cbn [fold_left]. cbn zeta in *.
    destruct (IH (enqueue_path a raw)) as (Hq & Hw & Hc & Hf & Hr & Hm & Hy).
    destruct (enqueue_path_frame a raw) as (Hw' & Hc' & Hf' & Hr' & Hm' & Hy').
    rewrite Hq, Hw, Hc, Hf, Hr, Hm, Hy, Hw', Hc', Hf', Hr', Hm', Hy'.
    split; [|done].
    rewrite enqueue_path_queue. rewrite (accepted_fs a _ _ _ Hf').
    change (raw :: r) with ([raw] ++ r). rewrite (accepted_app a _ [raw] r).
    by rewrite <- app_assoc.
Qed.

(** Popping takes the head of the queue. *)
Lemma _process_next_task_order a0 a :
  workers a0 = workers a →
  started_by a0 (_process_next_task a) ++ map path (queue (_process_next_task a))
  = map path (queue a).
Proof.
  intros Hw. unfold _process_next_task, started_by.
  destruct (model_ready a); cbn [negb].
  - destruct (queue a) as [|t q] eqn:Hq.
    + rewrite Hw, Nat.ltb_irrefl, Hq. done.
    + destruct (model a).
      * cbn -[Nat.ltb]. rewrite Hw, length_app. cbn -[Nat.ltb].
        replace (length (workers a) <? length (workers a) + 1)%nat with true
          by (symmetry; apply Nat.ltb_lt; lia).
        done.
      * rewrite Hw, Nat.ltb_irrefl, Hq. done.
  - cbn -[Nat.ltb]. rewrite Hw, Nat.ltb_irrefl. done.
Qed.

Lemma started_by_same a a' :
  length (workers a') = length (workers a) → started_by a a' = [].
Proof. intros H. unfold started_by. by rewrite H, Nat.ltb_irrefl. Qed.

Lemma progress_watcher_frame a :
  queue (progress_watcher a) = queue a
  ∧ workers (progress_watcher a) = workers a.
Proof.
  unfold progress_watcher. destruct (progress_parser a) as [p|]; [|done].
  destruct (heap (interp a) !! p) as [q|]; [|done].
  unfold read_progress.
  destruct (last _) as [tok|]; [|done].
  destruct (latest_progress tok) as [v|]; [|done].
  unfold _handle_progress_update. by destruct (percent_of v).
Qed.

Lemma step_order a ev :
  started_by a (step a ev) ++ map path (queue (step a ev))
  = map path (queue a) ++ appended_by a ev.
Proof.
  unfold step, appended_by. destruct (running a) eqn:Hrun; cbn [negb].
  2: { rewrite started_by_same by done. by rewrite app_nil_r. }
  destruct ev as [|paths|data|i|w|text|w outcome io| |f|].
  - rewrite app_nil_r. destruct (model a); by rewrite started_by_same.
  - unfold _enqueue_files.
    destruct (enqueue_files_loop paths a) as (Hq & Hw & _).
    rewrite _process_next_task_order by done. exact Hq.
  - unfold _handle_dropped_files, _enqueue_files.
    destruct data as [s|l].
    + destruct (enqueue_files_loop (split s) a) as (Hq & Hw & _).
      rewrite _process_next_task_order by done. exact Hq.
    + destruct (enqueue_files_loop l a) as (Hq & Hw & _).
      rewrite _process_next_task_order by done. exact Hq.
  - rewrite app_nil_r. destruct (pending a !! i) as [c|].
    2: by rewrite started_by_same.
    destruct c; cbn [run_callback]; try percent_cases;
      try by rewrite started_by_same.
    by rewrite _process_next_task_order.
  - rewrite app_nil_r. destruct (workers a !! w) as [[| |]|];
      try by rewrite started_by_same.
    rewrite started_by_same; unfold worker_begin; cbn;
      [by destruct (current_task a)|].
    destruct (current_task a); cbn; by rewrite length_insert.
  - rewrite app_nil_r. by rewrite started_by_same.
  - rewrite app_nil_r. destruct (workers a !! w) as [[|p x|]|];
      try by rewrite started_by_same.
    rewrite started_by_same; unfold worker_end;
      destruct outcome; cbn; try done; try by rewrite length_insert.
    all: unfold _save_transcription_result; destruct (current_task a);
      try destruct io; cbn; try done; by rewrite length_insert.
  - rewrite app_nil_r. destruct (progress_watcher_frame a) as [Hq Hw].
    rewrite started_by_same by by rewrite Hw. by rewrite Hq.
  - rewrite app_nil_r. by rewrite started_by_same.
  - rewrite app_nil_r. by rewrite started_by_same.
Qed.

Lemma run_order evs : ∀ a,
  processing_order evs a ++ map path (queue (run evs a))
  = map path (queue a) ++ enqueue_order evs a.
Proof.
  induction evs as [|ev r IH]; intros a.
  - simpl. by rewrite app_nil_r.
  - cbn [processing_order enqueue_order run fold_left].
    rewrite <- app_assoc. unfold run in IH. rewrite IH.
    rewrite !app_assoc. by rewrite step_order.
Qed.

Lemma accepted_first_occurrences a raws : ∀ waiting,
  accepted a waiting raws
  = first_occurrences waiting (filter (fun p => is_valid a p = true)
                                (map _normalize_path raws)).
Proof.
  induction raws as [|raw r IH]; intros waiting; [done|].
  cbn [accepted map]. rewrite filter_cons.
  destruct (is_valid a (_normalize_path raw)) eqn:Hv.
  - rewrite decide_True by done. cbn [andb first_occurrences].
    destruct (bool_decide (_normalize_path raw ∈ waiting)); cbn [negb].
    + apply IH.
    + by rewrite IH.
  - rewrite decide_False by done. cbn [andb]. apply IH.
Qed.

(** C4 (as amended).  In every run, the jobs that have begun processing
    followed by the jobs still pending are the jobs pending at the start
    followed by the accepted enqueues in their order: jobs begin
    processing in FIFO order of the enqueues that were accepted.  An
    enqueue is accepted when its path passes validation and is not pending
    at that moment, so a batch enqueued on an empty queue leaves the first
    occurrences of its valid normalized paths; a path enqueued again after
    its entry was dequeued is accepted again. *)
Theorem processing_order_fifo :
  (∀ evs a,
      processing_order evs a ++ map path (queue (run evs a))
      = map path (queue a) ++ enqueue_order evs a)
  ∧ (∀ raws a,
        queue a = [] →
        map path (queue (fold_left enqueue_path raws a))
        = first_occurrences [] (filter (fun p => is_valid a p = true)
                                  (map _normalize_path raws))).
Proof.
  split.
  - intros evs a. apply run_order.
  - intros raws a Hq.
    destruct (enqueue_files_loop raws a) as (H & _). cbn zeta in H.
    rewrite H, Hq. cbn [map app]. apply accepted_first_occurrences.
Qed.
End Order.

(** ** What stopping a capture restores *)

Section Capture.
Context `{rt : Runtime}.

Lemma restores_init π p t :
  restores π p t → restores (ProgressParser_init π).2 p t.
Proof.
  intros (q & Hq & Ht). exists q. split; [|done]. cbn.
  by apply lookup_app_l_Some.
Qed.

Lemma restores_insert π p t p' q' :
  restores π p t →
  (∀ q, heap π !! p' = Some q → original_stdout q' = original_stdout q) →
  restores (set_heap (<[p' := q']> (heap π)) π) p t.
Proof.
  intros (q & Hq & Ht) Hsame. cbn. unfold restores. cbn.
  destruct (decide (p' = p)) as [->|Hne].
  - exists q'. split.
    + apply list_lookup_insert_eq. by eapply lookup_lt_Some.
    + by rewrite (Hsame q Hq).
  - exists q. by rewrite list_lookup_insert_ne.
Qed.

Lemma restores_write π p t text :
  restores π p t → restores (stdout_write text π) p t.
Proof.
  intros H. unfold stdout_write. destruct (sys_stdout π) as [|p'].
  - exact H.
  - destruct (heap π !! p') as [q|] eqn:Hq; [|done].
    apply restores_insert; [done|]. intros q0 Hq0. cbn. congruence.
Qed.

Lemma restores_set_stdout π p t s :
  restores π p t → restores (set_stdout s π) p t.
Proof. done. Qed.

Lemma restores_exit π p t p' :
  restores π p t → restores (ProgressParser_exit p' π) p t.
Proof. intros H. unfold ProgressParser_exit. by destruct (heap π !! p'). Qed.

Lemma progress_watcher_restores a p t :
  restores (interp a) p t → restores (interp (progress_watcher a)) p t.
Proof.
  intros H. unfold progress_watcher.
  destruct (progress_parser a) as [p'|]; [|done].
  destruct (heap (interp a) !! p') as [q|] eqn:Hq; [|done].
  assert (restores (set_heap (<[p' := drain q]> (heap (interp a))) (interp a)) p t)
    as H'.
  { apply restores_insert; [done|]. intros q0 Hq0. cbn. congruence. }
  unfold read_progress. destruct (last _) as [tok|]; [|exact H'].
  destruct (latest_progress tok) as [v|].
  - unfold _handle_progress_update. destruct (percent_of v); [exact H'|].
    cbn [interp set_interp mbind result_bind]. by apply restores_write.
  - cbn [interp set_interp]. by apply restores_write.
Qed.

Lemma _process_next_task_interp a : interp (_process_next_task a) = interp a.
Proof.
  unfold _process_next_task. destruct (model_ready a); [|done].
  destruct (queue a); [done|]. by destruct (model a).
Qed.

Lemma enqueue_files_interp raws :
  ∀ a, interp (fold_left enqueue_path raws a) = interp a.
Proof.
  induction raws as [|raw r IH]; intros a; [done|]. cbn [fold_left].
  rewrite IH. unfold enqueue_path.
  destruct (_validate_audio_file a (_normalize_path raw)) as [[]|e]; [|done].
  by destruct (negb _).
Qed.

Lemma worker_begin_interp w a :
  interp (worker_begin w a)
  = let '(p, π) := ProgressParser_init (interp a) in
    match current_task a with
    | Some _ => ProgressParser_enter p π
    | None => ProgressParser_exit p (ProgressParser_enter p π)
    end.
Proof. unfold worker_begin. cbn. by destruct (current_task a). Qed.

Lemma step_restores a ev p t :
  restores (interp a) p t → restores (interp (step a ev)) p t.
Proof.
  intros H. unfold step. destruct (running a); [|done]. cbn [negb].
  destruct ev as [|paths|data|i|w|text|w outcome io| |f|].
  - by destruct (model a).
  - unfold _enqueue_files. by rewrite _process_next_task_interp, enqueue_files_interp.
  - unfold _handle_dropped_files, _enqueue_files.
    by rewrite _process_next_task_interp, enqueue_files_interp.
  - destruct (pending a !! i) as [c|]; [|done].
    destruct c; cbn [run_callback]; try percent_cases; try done.
    by rewrite _process_next_task_interp.
  - destruct (workers a !! w) as [[| |]|]; try done.
    rewrite worker_begin_interp. apply restores_init in H.
    cbn [ProgressParser_init]. destruct (current_task a); [exact H|].
    by apply restores_exit.
  - cbn. by apply restores_write.
  - destruct (workers a !! w) as [[|p' x|]|]; try done.
    unfold worker_end. destruct outcome as [text|e]; cbn.
    + unfold _save_transcription_result.
      destruct (current_task a); [destruct io|]; cbn; by apply restores_exit.
    + by apply restores_exit.
  - by apply progress_watcher_restores.
  - done.
  - done.
Qed.

Lemma run_restores evs : ∀ a p t,
  restores (interp a) p t → restores (interp (run evs a)) p t.
Proof.
  induction evs as [|ev r IH]; intros a p t H; [done|].
  cbn [run fold_left]. apply IH. by apply step_restores.
Qed.

Lemma worker_end_stdout w p outcome io a t :
  restores (interp a) p t →
  sys_stdout (interp (worker_end w p outcome io a)) = t.
Proof.
  intros (q & Hq & Ht). unfold worker_end.
  destruct outcome as [text|e]; cbn.
  - unfold _save_transcription_result, ProgressParser_exit.
    destruct (current_task a); [destruct io|]; cbn; by rewrite Hq.
  - unfold ProgressParser_exit. by rewrite Hq.
Qed.

(** C3 (as amended).  The capture a worker starts is stopped when its
    call of [transcribe] ends, and that sets [sys.stdout] to the target it
    had when the capture was created, whatever happened in between, other
    captures starting and stopping included.  That target is the original
    one only if no other capture was redirecting [sys.stdout] at that
    moment. *)
Theorem capture_stop_restores_target_of_start (a : App) w evs x outcome io :
  running a = true →
  workers a !! w = Some Spawned →
  let p := length (heap (interp a)) in
  let started := run evs (step a (EvWorkerBegin w)) in
  running started = true →
  workers started !! w = Some (Transcribing p x) →
  sys_stdout (interp (step started (EvWorkerEnd w outcome io)))
  = sys_stdout (interp a).
Proof.
  intros Hrun Hw p started Hrun' Hw'.
  unfold step at 1. rewrite Hrun', Hw'. cbn [negb].
  apply worker_end_stdout. apply run_restores.
  unfold step. rewrite Hrun, Hw. cbn [negb]. rewrite worker_begin_interp.
  assert (restores (ProgressParser_init (interp a)).2 p (sys_stdout (interp a)))
    as H.
  { exists {| buffer := []; original_stdout := sys_stdout (interp a);
              captured_content := [] |}.
    split; [|done]. cbn. by apply list_lookup_middle. }
  cbn [ProgressParser_init]. destruct (current_task a); [exact H|].
  by apply restores_exit.
Qed.
End Capture.

(** ** A job that fails *)

Section Failure.
Context `{rt : Runtime}.

Lemma worker_end_failure a w p outcome io m :
  reported a outcome io = Some m →
  let a' := worker_end w p outcome io a in
  errors (gui a') = errors (gui a) ++ [m]
  ∧ progress_parser a' = None
  ∧ current_task a' = None
  ∧ pending a' = pending a ++ [CbProcessNext]
  ∧ workers a' = <[w := Finished]> (workers a)
  ∧ queue a' = queue a
  ∧ written a' = written a
  ∧ running a' = running a
  ∧ model a' = model a
  ∧ model_ready a' = model_ready a.
Proof.
  unfold reported, worker_end, _save_transcription_result.
  destruct outcome as [text|e].
  - destruct (current_task a) as [t|]; [destruct io as [[]|e]|];
      intros [= <-]; done.
  - intros [= <-]. done.
Qed.

Lemma _process_next_task_pops a y q :
  model_ready a = true → model a = true → queue a = y :: q →
  let a' := _process_next_task a in
  queue a' = q
  ∧ current_task a' = Some y
  ∧ workers a' = workers a ++ [Spawned]
  ∧ interp a' = interp a
  ∧ written a' = written a
  ∧ errors (gui a') = errors (gui a)
  ∧ running a' = running a.
Proof.
  intros Hr Hm Hq. unfold _process_next_task. rewrite Hr, Hq, Hm. done.
Qed.

Lemma worker_begin_with_task a w y :
  current_task a = Some y →
  let a' := worker_begin w a in
  workers a' = <[w := Transcribing (length (heap (interp a))) (path y)]> (workers a)
  ∧ current_task a' = Some y
  ∧ queue a' = queue a
  ∧ written a' = written a
  ∧ errors (gui a') = errors (gui a)
  ∧ running a' = running a.
Proof. intros Hc. unfold worker_begin. cbn. rewrite Hc. done. Qed.

Lemma worker_end_success a w p y text :
  current_task a = Some y →
  let a' := worker_end w p (Ok text) (Ok ()) a in
  written a' = written a ++ [(path y, text)]
  ∧ queue a' = queue a
  ∧ errors (gui a') = errors (gui a)
  ∧ lbl_status (gui a') = StDone
  ∧ current_task a' = None.
Proof.
  intros Hc. unfold worker_end, _save_transcription_result. rewrite Hc. done.
Qed.

(** A thread that nothing interrupts between its two events runs the
    method in one piece. *)
Lemma run_worker_uninterrupted (a : App) w outcome io :
  running a = true → workers a !! w = Some Spawned →
  current_task a ≠ None →
  run [EvWorkerBegin w; EvWorkerEnd w outcome io] a
  = _execute_transcription w outcome io a.
Proof.
  intros Hrun Hw Hc. destruct (current_task a) as [t|] eqn:Ht; [|done].
  destruct (worker_begin_with_task a w t Ht) as (Hw1 & _ & _ & _ & _ & Hr1).
  assert (workers (worker_begin w a) !! w
          = Some (Transcribing (length (heap (interp a))) (path t))) as Hl.
  { rewrite Hw1. apply list_lookup_insert_eq. by eapply lookup_lt_Some. }
  unfold run, _execute_transcription. cbn [fold_left].
  assert (step a (EvWorkerBegin w) = worker_begin w a) as ->.
  { unfold step. by rewrite Hrun, Hw. }
  unfold step. by rewrite Hr1, Hrun, Hl.
Qed.

(** C8.  When the transcription call of a job, or the writing of its
    result, raises, the error is shown, [progress_parser] and
    [current_task] are reset and [_process_next_task] is scheduled; when
    the main loop then runs it, the next pending job is popped, and if its
    own transcription and writing succeed its transcript is written. *)
Theorem failed_job_does_not_stop_the_next (a : App) w p x outcome io m y q text :
  running a = true → model_ready a = true → model a = true →
  workers a !! w = Some (Transcribing p x) →
  queue a = y :: q →
  reported a outcome io = Some m →
  let failed := step a (EvWorkerEnd w outcome io) in
  let next := length (workers a) in
  let done :=
    run [EvTick (length (pending a)); EvWorkerBegin next;
         EvWorkerEnd next (Ok text) (Ok ())] failed in
  (errors (gui failed) = errors (gui a) ++ [m]
   ∧ progress_parser failed = None
   ∧ current_task failed = None
   ∧ pending failed = pending a ++ [CbProcessNext]
   ∧ workers failed !! w = Some Finished)
  ∧ (written done = written a ++ [(path y, text)]
     ∧ queue done = q
     ∧ errors (gui done) = errors (gui a) ++ [m]
     ∧ lbl_status (gui done) = StDone).
Proof.
  intros Hrun Hready Hmodel Hw Hq Hm failed next done.
  assert (failed = worker_end w p outcome io a) as Hfailed.
  { unfold failed, step. by rewrite Hrun, Hw. }
  destruct (worker_end_failure a w p outcome io m Hm)
    as (He & Hpp & Hct & Hpe & Hwk & Hqu & Hwr & Hru & Hmo & Hre).
  rewrite <- Hfailed in He, Hpp, Hct, Hpe, Hwk, Hqu, Hwr, Hru, Hmo, Hre.
  split.
  { repeat split; try done. rewrite Hwk. apply list_lookup_insert_eq.
    by eapply lookup_lt_Some. }
  (* the main loop runs the callback the failed job left *)
  set (a1 := set_pending (delete (length (pending a)) (pending failed)) failed).
  assert (step failed (EvTick (length (pending a))) = _process_next_task a1) as Htick.
  { assert (pending failed !! length (pending a) = Some CbProcessNext) as Hl
      by (rewrite Hpe; by apply list_lookup_middle).
    unfold step. rewrite Hru, Hrun. cbn [negb]. by rewrite Hl. }
  destruct (_process_next_task_pops a1 y q) as (Hq2 & Hc2 & Hw2 & _ & Hwr2 & He2 & Hr2).
  { by rewrite <- Hready, <- Hre. } { by rewrite <- Hmodel, <- Hmo. }
  { by rewrite <- Hq, <- Hqu. }
  rewrite <- Htick in Hq2, Hc2, Hw2, Hwr2, He2, Hr2.
  set (a2 := step failed (EvTick (length (pending a)))) in *.
  cbn [workers written gui running a1 set_pending] in Hw2, Hwr2, He2, Hr2.
  (* the new thread reaches the call of transcribe *)
  assert (step a2 (EvWorkerBegin next) = worker_begin next a2) as Hbegin.
  { unfold step. rewrite Hr2, Hru, Hrun. cbn [negb]. rewrite Hw2, Hwk.
    rewrite lookup_app_r by by rewrite length_insert.
    rewrite length_insert. unfold next. by rewrite Nat.sub_diag. }
  destruct (worker_begin_with_task a2 next y Hc2) as (Hw3 & Hc3 & Hq3 & Hwr3 & He3 & Hr3).
  rewrite <- Hbegin in Hw3, Hc3, Hq3, Hwr3, He3, Hr3.
  set (a3 := step a2 (EvWorkerBegin next)) in *.
  (* and its call returns *)
  assert (step a3 (EvWorkerEnd next (Ok text) (Ok ()))
          = worker_end next (length (heap (interp a2))) (Ok text) (Ok ()) a3) as Hend.
  { unfold step. rewrite Hr3, Hr2, Hru, Hrun. cbn [negb]. rewrite Hw3.
    rewrite list_lookup_insert_eq; [done|].
    rewrite Hw2, Hwk, length_app, length_insert. unfold next. simpl. lia. }
  destruct (worker_end_success a3 next (length (heap (interp a2))) y text Hc3)
    as (Hwr4 & Hq4 & He4 & Hs4 & _).
  rewrite <- Hend in Hwr4, Hq4, He4, Hs4.
  change done with (step a3 (EvWorkerEnd next (Ok text) (Ok ()))).
  rewrite Hwr4, Hq4, He4, Hs4, Hwr3, Hq3, He3, Hwr2, Hq2, He2, Hwr, He.
  done.
Qed.
End Failure.

(** ** The single worker *)

(** [_process_next_task] starts a thread whenever the model is ready and the
    queue is not empty; [current_task] is not consulted. *)
Lemma _process_next_task_ignores_current_task `{rt : Runtime} (a : App) t q :
  model_ready a = true → model a = true → queue a = t :: q →
  workers (_process_next_task a) = workers a ++ [Spawned]
  ∧ current_task (_process_next_task a) = Some t.
Proof.
  intros Hr Hm Hq.
  by destruct (_process_next_task_pops a t q Hr Hm Hq) as (_ & ? & ? & _).
Qed.

(** C1, on the code.  An enqueue that arrives while [a.wav] is being
    transcribed starts a second thread, and two jobs are transcribed at the
    same time; and two enqueues made before the model is loaded leave two
    scheduled calls of [_process_next_task], each of which starts a
    thread. *)
Theorem enqueue_while_transcribing_starts_second_job :
  (let a := run [EvModelLoaded; EvTick 0; EvOpenFiles [a_wav]; EvWorkerBegin 0;
                 EvOpenFiles [b_wav]; EvWorkerBegin 1] (init_app every_file) in
   workers a = [Transcribing 0 a_wav; Transcribing 1 b_wav]
   ∧ jobs_running a = 2%nat)
  ∧ (let a := run [EvOpenFiles [a_wav]; EvOpenFiles [b_wav]; EvModelLoaded;
                   EvTick 0; EvTick 0; EvWorkerBegin 0; EvWorkerBegin 1]
                (init_app every_file) in
     jobs_running a = 2%nat).
Proof. by vm_compute. Qed.

(** ** Witnesses and counterexamples *)

Lemma read_progress_returns_last_token_witness :
  read_progress record_value (fresh_parser sample_text) []
  = (drain (fresh_parser sample_text), [float_042], Ok float_042)
  ∧ binary64 0.42 = Some float_042
  ∧ (read_progress _handle_progress_update (fresh_parser sample_text)
       (init_app every_file)).2 = Ok float_042.
Proof.
  destruct (read_progress_returns_last_token record_value
              (fresh_parser sample_text) [] (py "42")) as [Haccepted _].
  { apply (last_token_intro (py "... 10% ... 55% ...") 32 (py "42") []);
      [reflexivity | discriminate | repeat constructor | reflexivity]. }
  destruct Haccepted as (v & Hv & _ & Hread & Hprogram & _).
  - right. simpl. lia.
  - reflexivity.
  - assert (v = float_042) as -> by (vm_compute in Hv; by injection Hv as <-).
    split; [exact Hread|]. split; [reflexivity|].
    by rewrite Hprogram.
Defined.

Lemma read_progress_does_not_clamp_witness :
  read_progress record_value (fresh_parser (py "step 150%")) []
  = (drain (fresh_parser (py "step 150%")), [float_15], Ok float_15)
  ∧ (float_15 == 1.5)%Q
  ∧ (read_progress _handle_progress_update (fresh_parser (py "step 150%"))
       (init_app every_file)).2 = Ok float_15.
Proof.
  destruct (read_progress_does_not_clamp record_value
              (fresh_parser (py "step 150%")) [] (py "150")) as [Haccepted _].
  { apply (last_token_intro (py "step") 32 (py "150") []);
      [reflexivity | discriminate | repeat constructor | reflexivity]. }
  { right. simpl. lia. }
  { reflexivity. }
  destruct Haccepted as (v & Hv & _ & Hread & _ & Hprogram & _).
  - reflexivity.
  - assert (v = float_15) as -> by (vm_compute in Hv; by injection Hv as <-).
    split; [exact Hread|]. split; [reflexivity|].
    by apply Hprogram.
Defined.

(** C5, as stated, fails: the last token of this text is a one followed by
    400 zeros, and [read_progress] raises instead of returning a value. *)
Lemma read_progress_last_token_overflow :
  last_token (py "... 10% ... 55% " ++ googol4 ++ [37]) googol4
  ∧ read_progress record_value
      (fresh_parser (py "... 10% ... 55% " ++ googol4 ++ [37])) []
    = (drain (fresh_parser (py "... 10% ... 55% " ++ googol4 ++ [37])), [],
       Raise OverflowError).
Proof.
  split.
  - apply (last_token_intro (py "... 10% ... 55%") 32 googol4 []).
    + reflexivity.
    + discriminate.
    + apply Forall_forall. intros c Hc. apply list_elem_of_In in Hc.
      destruct Hc as [<-|Hc]; [reflexivity|].
      apply repeat_spec in Hc as ->. reflexivity.
    + vm_compute. reflexivity.
  - vm_compute. reflexivity.
Qed.

(** C6, as stated, fails: an out-of-range token that large is not passed
    through, the division raises; and for a one followed by 309 zeros the
    division gives a float, but the callback of the application raises at
    [int(value * 100)] and nothing is returned. *)
Lemma read_progress_out_of_range_overflow :
  (100 < digits_value googol4)%Z
  ∧ last_token (32 :: googol4 ++ [37]) googol4
  ∧ read_progress record_value (fresh_parser (32 :: googol4 ++ [37])) []
    = (drain (fresh_parser (32 :: googol4 ++ [37])), [], Raise OverflowError)
  ∧ last_token (32 :: googol309 ++ [37]) googol309
  ∧ float_accepts (digits_value googol309)
  ∧ (read_progress _handle_progress_update
       (fresh_parser (32 :: googol309 ++ [37])) (init_app every_file)).2
    = Raise InfinityToInt.
Proof.
  assert (∀ k, Forall (fun c => is_digit c = true) (49 :: repeat 48 k))
    as Hdigits.
  { intros k. apply Forall_forall. intros c Hc. apply list_elem_of_In in Hc.
    destruct Hc as [<-|Hc]; [reflexivity|].
    apply repeat_spec in Hc as ->. reflexivity. }
  split; [vm_compute; reflexivity|]. split; [|split; [|split; [|split]]].
  - apply (last_token_intro [] 32 googol4 []);
      [reflexivity | discriminate | apply Hdigits | by vm_compute].
  - vm_compute. reflexivity.
  - apply (last_token_intro [] 32 googol309 []);
      [reflexivity | discriminate | apply Hdigits | by vm_compute].
  - by vm_compute.
  - vm_compute. reflexivity.
Qed.

(** C2, as stated, fails: the path of the job being transcribed is not
    pending any more, and enqueueing it again adds an entry. *)
Lemma enqueue_path_current_job_requeued :
  current_task transcribing_a = Some (waiting_task a_wav)
  ∧ queue transcribing_a = []
  ∧ queue (enqueue_path transcribing_a a_wav) = [waiting_task a_wav].
Proof. by vm_compute. Qed.

Lemma enqueue_path_pending_duplicate_witness :
  let a := enqueue_path (init_app every_file) a_wav in
  queue a = [waiting_task a_wav]
  ∧ queue (enqueue_path a a_wav) = queue a
  ∧ enqueue_path a a_wav = a.
Proof.
  intros a. split; [reflexivity|].
  destruct (enqueue_path_pending_duplicate a a_wav) as [Hq Hsame];
    [reflexivity|].
  split; [exact Hq|]. apply Hsame. reflexivity.
Defined.

(** C3, as stated, fails: two captures overlap, both are stopped, and
    [sys.stdout] is left pointing at the buffer of the first. *)
Lemma overlapping_captures_leave_stdout_redirected :
  let a := run [EvModelLoaded; EvTick 0; EvOpenFiles [a_wav]; EvWorkerBegin 0;
                EvOpenFiles [b_wav]; EvWorkerBegin 1;
                EvWorkerEnd 0 (Ok (py "first")) (Ok ());
                EvWorkerEnd 1 (Ok (py "second")) (Ok ())]
             (init_app every_file) in
  sys_stdout (interp (init_app every_file)) = Console
  ∧ jobs_running a = 0%nat
  ∧ sys_stdout (interp a) = BufferOf 0.
Proof. by vm_compute. Qed.

Lemma capture_stop_restores_target_of_start_witness :
  let a := run [EvModelLoaded; EvTick 0; EvOpenFiles [a_wav]]
             (init_app every_file) in
  let started := run [EvEngineWrite (py " 10%"); EvMonitor]
                   (step a (EvWorkerBegin 0)) in
  sys_stdout (interp started) = BufferOf 0
  ∧ sys_stdout (interp (step started (EvWorkerEnd 0 (Ok (py "text")) (Ok ()))))
    = Console.
Proof.
  intros a started. split; [reflexivity|].
  exact (capture_stop_restores_target_of_start a 0
           [EvEngineWrite (py " 10%"); EvMonitor] a_wav (Ok (py "text")) (Ok ())
           eq_refl eq_refl eq_refl eq_refl).
Defined.

(** C4, as stated, fails: [a.wav] is enqueued, transcribed to the end, and
    enqueued again; it is processed twice, while the enqueue calls with
    duplicates collapsed name it once. *)
Lemma reenqueued_path_processed_twice :
  processing_order
    [EvModelLoaded; EvTick 0; EvOpenFiles [a_wav]; EvWorkerBegin 0;
     EvWorkerEnd 0 (Ok (py "text")) (Ok ()); EvTick 0; EvOpenFiles [a_wav]]
    (init_app every_file)
  = [a_wav; a_wav]
  ∧ first_occurrences [] (map _normalize_path [a_wav; a_wav]) = [a_wav].
Proof. by vm_compute. Qed.

Lemma processing_order_fifo_witness :
  let evs := [EvOpenFiles [b_wav; py "{a.wav}"; b_wav]; EvModelLoaded;
              EvTick 0; EvWorkerBegin 0] in
  processing_order evs (init_app every_file)
  ++ map path (queue (run evs (init_app every_file)))
  = [b_wav; a_wav]
  ∧ map path (queue (fold_left enqueue_path [b_wav; py "{a.wav}"; b_wav]
                       (init_app every_file)))
    = [b_wav; a_wav].
Proof.
  intros evs. destruct processing_order_fifo as [Hfifo Hbatch]. split.
  - rewrite (Hfifo evs (init_app every_file)). reflexivity.
  - rewrite (Hbatch [b_wav; py "{a.wav}"; b_wav] (init_app every_file) eq_refl).
    reflexivity.
Defined.

Lemma enqueue_path_rejects_invalid_witness :
  let a := init_app no_file in
  ∃ e, e = FileNotFoundError (py "/tmp/missing.wav")
       ∧ queue (enqueue_path a (py "/tmp/missing.wav")) = queue a
       ∧ errors (gui (enqueue_path a (py "/tmp/missing.wav"))) = [ErrText e].
Proof.
  intros a.
  destruct (enqueue_path_rejects_invalid a (py "/tmp/missing.wav"))
    as (e & Hraise & _ & _ & Hq & _ & Herr & _); [by left|].
  exists e. split; [|by split].
  vm_compute in Hraise. by injection Hraise as <-.
Defined.

Lemma failed_job_does_not_stop_the_next_witness :
  let failure := Raise (External (py "corrupt audio")) in
  let failed := step transcribing_x (EvWorkerEnd 0 failure (Ok ())) in
  let done := run [EvTick 0; EvWorkerBegin 1;
                   EvWorkerEnd 1 (Ok (py "text")) (Ok ())] failed in
  errors (gui failed) = [ErrText (External (py "corrupt audio"))]
  ∧ written done = [(y_wav, py "text")].
Proof.
  intros failure failed done.
  destruct (failed_job_does_not_stop_the_next transcribing_x 0 0 x_mp3
              failure (Ok ()) (ErrText (External (py "corrupt audio")))
              (waiting_task y_wav) [] (py "text")
              eq_refl eq_refl eq_refl eq_refl eq_refl eq_refl)
    as ((Herr & _) & (Hwritten & _)).
  split; [exact Herr|exact Hwritten].
Defined.

(** C9, as stated, fails: a leading space survives normalization, so the
    path does not get the key of the bare path. *)
Lemma normalize_path_keeps_whitespace :
  _normalize_path (py " a.wav") = py " a.wav"
  ∧ _normalize_path (py "a.wav") = py "a.wav"
  ∧ _normalize_path (py " a.wav") ≠ _normalize_path (py "a.wav").
Proof. split; [reflexivity|]. split; [reflexivity|]. by vm_compute. Qed.

Lemma normalize_path_removes_braces_only_witness :
  _normalize_path (py "{/tmp//a b.wav}") = _normalize_path (py "/tmp//a b.wav")
  ∧ _normalize_path (py "/tmp//a b.wav") = py "/tmp/a b.wav"
  ∧ (∃ r', _normalize_path (py "/tmp/a.wav ") = r' ++ [32])
  ∧ (∃ r', _normalize_path (py " a.wav") = 32 :: r')
  ∧ _normalize_path (py " a/../b.wav") = py "b.wav"
  ∧ _normalize_path (py "a/../b.wav") = py "b.wav".
Proof.
  destruct (normalize_path_removes_braces_only (rt := posix_ascii)
              eq_refl eq_refl eq_refl)
    as (Hwrap & Hlast & Hfirst & _).
  assert (Forall is_brace (py "{")) as Hl by (apply Forall_singleton; by left).
  assert (Forall is_brace (py "}")) as Hr by (apply Forall_singleton; by right).
  split; [|split; [reflexivity|split; [|split; [|split; reflexivity]]]].
  - exact (proj1 (Hwrap (py "{") (py "/tmp//a b.wav") (py "}")
                    (init_app every_file) Hl Hr)).
  - exact (Hlast (py "/tmp/a.wav") 32 eq_refl).
  - apply (Hfirst 32 (py "a.wav") eq_refl).
    intros Hin. apply list_elem_of_In in Hin. vm_compute in Hin.
    by destruct Hin as [?|[]].
Defined.

Lemma handle_dropped_files_splits_at_space_witness :
  let a := init_app no_file in
  split (py "/tmp/my file.wav") = [py "/tmp/my"; py "file.wav"]
  ∧ errors (gui (_handle_dropped_files (DataStr (py "/tmp/my file.wav")) a))
    = [ErrText (FileNotFoundError (py "/tmp/my"));
       ErrText (FileNotFoundError (py "file.wav"))].
Proof.
  intros a.
  destruct (handle_dropped_files_splits_at_space (py "/tmp/my") 32
              (py "file.wav") a)
    as (Hdrop & Hfrag & _).
  - reflexivity.
  - apply Exists_cons. by left.
  - apply Exists_cons. by left.
  - split; [exact Hfrag|].
    change (py "/tmp/my file.wav") with (py "/tmp/my" ++ 32 :: py "file.wav").
    rewrite Hdrop. reflexivity.
Defined.

(** * More properties *)

(** ** [findall] and [read_progress] *)

Section ReadProgressMore.
Context `{rt : Runtime} {S : Type}.
Variable update_callback : pyfloat → S → S * result unit.

Lemma findall_from_sound s : ∀ k pre g,
  g ∈ findall_from k s → ∃ pre' post, token_at (pre ++ s) pre' g post.
Proof.
  induction s as [|c r IH]; intros k pre g Hin.
  - by apply elem_of_nil in Hin.
  - assert (∀ k', g ∈ findall_from k' r →
                  ∃ pre' post, token_at (pre ++ c :: r) pre' g post) as Hrec.
    { intros k' H. destruct (IH k' (pre ++ [c]) g H) as (pre' & post & Ht).
      exists pre', post. by rewrite <- app_assoc in Ht. }
    destruct k as [|k]; cbn [findall_from] in Hin; [|by eapply Hrec].
    destruct (match_here (c :: r)) as [[g' rest]|] eqn:Hm; [|by eapply Hrec].
    apply elem_of_cons in Hin as [->|Hin]; [|by eapply Hrec].
    apply match_here_sound in Hm as (sp & Heq & Hsp & Hne & Hall).
    exists pre, rest, sp. rewrite Heq. done.
Qed.

(** X1.  Every string [findall] returns is the digits of a percentage
    token of the text: a non-empty run of digits that a whitespace
    character precedes and a percent sign follows. *)
Theorem findall_matches_are_tokens text g :
  g ∈ findall text → ∃ pre post, token_at text pre g post.
Proof. intros H. by apply (findall_from_sound text 0%nat [] g). Qed.

(** X2.  [read_progress] either returns a fraction that is not negative,
    or raises the [ValueError] of [int()] on too many digits, the
    [OverflowError] of the division, or what the callback raised; with the
    callback of the application that is the [OverflowError] of
    [int(value * 100)].  In every case the buffer has been drained into
    the accumulated text. *)
Theorem read_progress_outcomes (q : ProgressParser) (s : S) :
  (read_progress update_callback q s).1.1 = drain q
  ∧ match (read_progress update_callback q s).2 with
    | Ok v => (0 <= v)%Q
    | Raise e =>
        e = OverflowError
        ∨ (∃ limit digits, e = IntDigitLimit limit digits)
        ∨ (∃ v, (update_callback v s).2 = Raise e)
    end
  ∧ (∀ (a : App) e,
       (read_progress _handle_progress_update q a).2 = Raise e →
       e = OverflowError ∨ e = InfinityToInt
       ∨ ∃ limit digits, e = IntDigitLimit limit digits).
Proof.
  assert (∀ tok e, latest_progress tok = Raise e →
            e = OverflowError ∨ ∃ limit digits, e = IntDigitLimit limit digits)
    as Hraise.
  { intros tok e. unfold latest_progress, py_int.
    destruct (_ && _); cbn [mbind result_bind].
    - intros [= <-]. right. eauto.
    - unfold truediv_100. destruct (binary64 _); [done|].
      intros [= <-]. by left. }
  assert (∀ tok v, latest_progress tok = Ok v → (0 <= v)%Q) as Hpos.
  { intros tok v. unfold latest_progress, py_int.
    destruct (_ && _); cbn [mbind result_bind]; [done|].
    unfold truediv_100. destruct (binary64 _) as [r|] eqn:Hr; [|done].
    intros [= <-]. eapply binary64_nonneg; [|exact Hr].
    unfold Qle; simpl. pose proof (digits_value_nonneg tok). lia. }
  unfold read_progress. destruct (last _) as [tok|]; [|done].
  destruct (latest_progress tok) as [v|e] eqn:Hv.
  - split; [by destruct (update_callback v s)|]. split.
    + destruct (update_callback v s) as [s' [[]|e]] eqn:Hcb;
        cbn [snd mbind result_bind].
      * by eapply Hpos.
      * right. right. exists v. by rewrite Hcb.
    + intros a e. unfold _handle_progress_update, percent_of, int_of_float.
      destruct (float_mul v 100%Q); cbn; [done|]. intros [= <-]. auto.
  - split; [done|]. split.
    + cbn [snd]. destruct (Hraise _ _ Hv) as [->|H]; auto.
    + intros a e' [= <-]. destruct (Hraise _ _ Hv) as [->|H]; auto.
Qed.

(** X3.  Polling is cumulative: output that arrives in two pieces with a
    call of [read_progress] in between leaves the parser, and gives the
    next call the result, that the same output arriving in one piece
    does; a token cut in two by a poll is still found. *)
Theorem read_progress_polling_is_cumulative (q : ProgressParser) (s s' : S) t1 t2 :
  let polled := (read_progress update_callback (feed t1 q) s).1.1 in
  read_progress update_callback (feed t2 polled) s'
  = read_progress update_callback (feed (t1 ++ t2) q) s'.
Proof.
  intros polled.
  assert (polled = drain (feed t1 q)) as ->.
  { unfold polled, read_progress. destruct (last _) as [tok|]; [|done].
    destruct (latest_progress tok) as [v|]; [|done].
    by destruct (update_callback v s). }
  unfold read_progress, drain, feed. cbn.
  rewrite <- !app_assoc. done.
Qed.
End ReadProgressMore.

(** X20.  The number in the status text is the token or one less: the
    two roundings of [int(token) / 100 * 100] can end just below the
    token, and [int()] truncates. *)
Theorem progress_label_is_token_or_one_less n v percent :
  (0 <= n < 2 ^ 50)%Z → truediv_100 n = Ok v → percent_of v = Ok percent →
  (n - 1 <= percent <= n)%Z.
Proof.
  intros [Hn Hlim] Hv Hpercent.
  destruct (Z.eq_dec n 0%Z) as [->|Hn0].
  { injection Hv as <-. injection Hpercent as <-. done. }
  assert (float_accepts n) as Hfloat.
  { unfold float_accepts. assert (2 ^ 50 < 100 * float_limit)%Z by done. lia. }
  destruct (truediv_100_accepts n Hn Hfloat) as (v' & Hv' & [Hlo Hhi] & Hpos).
  rewrite Hv in Hv'. injection Hv' as <-.
  unfold percent_of, float_mul, int_of_float in Hpercent.
  destruct (binary64 (v * 100)) as [w|] eqn:Hw; [|done].
  injection Hpercent as <-.
  assert ((n # 100) * 100 == inject_Z n)%Q as Hn100
    by (rewrite Qmake_Qdiv; field).
  assert (1 <= inject_Z n)%Q as Hn1 by (rewrite <- (Zle_Qle 1); lia).
  assert (inject_Z n < inject_Z (2 ^ 50))%Q as Hn50 by by rewrite <- Zlt_Qlt.
  change (inject_Z (2 ^ 50)) with (1125899906842624 # 1)%Q in Hn50.
  assert (2 ^ (-1022) <= 1 # 2)%Q as Htiny by by apply Qle_bool_iff.
  set (x := (n # 100)%Q) in *. set (N := inject_Z n) in *.
  assert (2 ^ (-1022) <= v * 100)%Q as Hnormal by lra.
  destruct (binary64_relative _ _ Hnormal Hw) as [Hwlo Hwhi].
  assert (0 <= w)%Q as Hw0 by lra.
  assert (Z.quot (Qnum w) (Z.pos (Qden w)) = Qfloor w) as ->.
  { destruct w as [a b]. cbn. apply Z.quot_div_nonneg; [|done].
    unfold Qle in Hw0. cbn in Hw0. lia. }
  pose proof (Qfloor_le w) as Hf1. pose proof (Qlt_floor w) as Hf2.
  rewrite inject_Z_succ in Hf2.
  assert (inject_Z (Qfloor w) < N + 1)%Q as Hup by lra.
  assert (N - 2 < inject_Z (Qfloor w))%Q as Hdown by lra.
  assert (Qfloor w < n + 1)%Z.
  { rewrite Zlt_Qlt, inject_Z_succ. exact Hup. }
  assert (n - 2 < Qfloor w)%Z.
  { rewrite Zlt_Qlt. unfold Z.sub. rewrite inject_Z_plus.
    change (inject_Z (- (2))) with (- (2))%Q. fold N. lra. }
  lia.
Qed.

Section WithoutToken.
Context `{rt : Runtime} {laws : RuntimeLaws rt}.

Lemma all_matches_nil_token_free text : all_matches text = [] → token_free text.
Proof.
  intros H pre ds post Ht. by apply all_matches_complete in Ht.
Qed.

Lemma no_space_token_free text : no_space text → token_free text.
Proof.
  intros Hns pre ds post (sp & -> & Hsp & _).
  apply Forall_app in Hns as [_ Hns]. apply Forall_cons in Hns as [Hns _].
  congruence.
Qed.

End WithoutToken.

(** ** A capture on its own *)

(** X5.  A capture that is created and entered receives what is printed:
    the text is in its buffer, the other parser objects and the original
    stream are untouched, and leaving the capture points [sys.stdout] back
    at the stream it was created under, where later output then goes. *)
Theorem capture_holds_what_is_printed (π : Py) text :
  let p := (ProgressParser_init π).1 in
  let capturing := ProgressParser_enter p (ProgressParser_init π).2 in
  let printed := stdout_write text capturing in
  heap printed !! p
  = Some {| buffer := text; original_stdout := sys_stdout π;
            captured_content := [] |}
  ∧ take p (heap printed) = heap π
  ∧ console printed = console π
  ∧ sys_stdout (ProgressParser_exit p printed) = sys_stdout π
  ∧ (sys_stdout π = Console →
     ∀ later, console (stdout_write later (ProgressParser_exit p printed))
              = console π ++ later).
Proof.
  intros p capturing printed.
  set (fresh := {| buffer := []; original_stdout := sys_stdout π;
                   captured_content := [] |}).
  set (full := {| buffer := text; original_stdout := sys_stdout π;
                  captured_content := [] |}).
  assert ((heap π ++ [fresh]) !! p = Some fresh) as Hp
    by by apply list_lookup_middle.
  assert (printed = {| sys_stdout := BufferOf p;
                       heap := <[p := full]> (heap π ++ [fresh]);
                       console := console π |}) as ->.
  { unfold printed, capturing, stdout_write, ProgressParser_enter,
      ProgressParser_init.
    cbn [sys_stdout set_stdout set_heap heap console fst snd]. fold fresh.
    fold p. by rewrite Hp. }
  assert (p < length (heap π ++ [fresh]))%nat as Hlt
    by by eapply lookup_lt_Some.
  unfold ProgressParser_exit. cbn [heap sys_stdout console].
  rewrite list_lookup_insert_eq by done.
  split; [done|]. split; [|split; [done|split; [done|]]].
  - rewrite take_insert_ge by done. change p with (length (heap π)).
    by rewrite take_app_length.
  - intros Hc later. unfold stdout_write. cbn. by rewrite Hc.
Qed.

Section Monitor.
Context `{rt : Runtime} {laws : RuntimeLaws rt}.

(** X6.  When a parser is attached and the last token of the text it has
    received is a number below [2^1024 - 2^972], one round of [progress_watcher]
    puts [int(value * 100)] into the status label and schedules the value
    twice for the progress bar: through the callback of the parser and
    through [_update_progress_ui]; the jobs are not touched. *)
Theorem progress_watcher_publishes_last_token (a : App) p q ds :
  progress_parser a = Some p →
  heap (interp a) !! p = Some q →
  last_token (captured_content q ++ buffer q) ds →
  int_accepts ds → percent_accepts (digits_value ds) →
  ∃ v percent,
    truediv_100 (digits_value ds) = Ok v
    ∧ percent_of v = Ok percent
    ∧ let a' := progress_watcher a in
      pending a' = pending a ++ [CbProgressBarSet v; CbUpdateProgressUI v]
      ∧ lbl_status (gui a') = StProgress percent
      ∧ heap (interp a') = <[p := drain q]> (heap (interp a))
      ∧ progress_bar (gui (run_callback (CbProgressBarSet v) a')) = v
      ∧ progress_bar (gui (run_callback (CbUpdateProgressUI v) a')) = v
      ∧ lbl_status (gui (run_callback (CbUpdateProgressUI v) a'))
        = StProgress percent
      ∧ queue a' = queue a ∧ current_task a' = current_task a
      ∧ workers a' = workers a.
Proof.
  intros Hp Hq Hlast Hint Hper.
  destruct (latest_progress_accepts ds Hint (percent_accepts_float _ Hper))
    as (v & Hlatest & Hv & _).
  destruct (percent_of_accepts _ v (digits_value_nonneg ds) Hper Hv)
    as [percent Hpercent].
  exists v, percent. split; [done|]. split; [done|].
  intros a'. unfold a', progress_watcher. rewrite Hp, Hq.
  unfold read_progress. cbn [drain captured_content].
  rewrite (findall_last_token _ _ Hlast), Hlatest.
  unfold _handle_progress_update, run_callback, _update_progress_ui.
  rewrite Hpercent. cbn. rewrite <- app_assoc. done.
Qed.

(** X7.  When [read_progress] raises inside [progress_watcher] while the
    attached parser is the one capturing, the line the watcher prints
    about the error goes into that parser's own buffer; nothing reaches
    the original stream, the widgets are not changed and
    [_update_progress_ui] is not scheduled.  Only when the exception is the
    one of [int(value * 100)] in the callback has [progress_bar.set]
    been scheduled before. *)
Theorem progress_watcher_prints_its_error_into_the_capture (a : App) p q e :
  progress_parser a = Some p →
  sys_stdout (interp a) = BufferOf p →
  heap (interp a) !! p = Some q →
  (read_progress _handle_progress_update q a).2 = Raise e →
  let a' := progress_watcher a in
  heap (interp a') !! p
  = Some {| buffer := watcher_error_line e;
            original_stdout := original_stdout q;
            captured_content := captured_content q ++ buffer q |}
  ∧ console (interp a') = console (interp a)
  ∧ gui a' = gui a
  ∧ (pending a' = pending a
     ∨ e = InfinityToInt
       ∧ ∃ v, pending a' = pending a ++ [CbProgressBarSet v]).
Proof.
  intros Hp Hout Hq Hraise a'. unfold a', progress_watcher. rewrite Hp, Hq.
  assert (p < length (heap (interp a)))%nat as Hlt by by eapply lookup_lt_Some.
  unfold read_progress in *.
  destruct (last (findall (captured_content (drain q)))) as [tok|];
    [|discriminate].
  destruct (latest_progress tok) as [v|e'].
  - unfold _handle_progress_update, percent_of, int_of_float in *.
    destruct (float_mul v 100%Q); [discriminate|].
    cbn in Hraise. injection Hraise as <-.
    cbn [interp set_interp after set_pending mbind result_bind].
    unfold stdout_write.
    cbn [sys_stdout set_heap heap]. rewrite Hout.
    rewrite list_lookup_insert_eq by done.
    cbn [sys_stdout set_heap heap console interp set_interp pending gui].
    rewrite list_lookup_insert_eq by by rewrite length_insert.
    split; [done|]. split; [done|]. split; [done|]. right. eauto.
  - cbn in Hraise. injection Hraise as ->.
    cbn [interp set_interp]. unfold stdout_write.
    cbn [sys_stdout set_heap heap]. rewrite Hout.
    rewrite list_lookup_insert_eq by done.
    cbn [sys_stdout set_heap heap console interp set_interp pending gui].
    rewrite list_lookup_insert_eq by by rewrite length_insert.
    split; [done|]. split; [done|]. split; [done|]. by left.
Qed.
End Monitor.

(** ** The queue *)

Section QueueInvariant.
Context `{rt : Runtime}.

Lemma enqueue_path_consistent a raw :
  queue_consistent a → queue_consistent (enqueue_path a raw).
Proof.
  intros (Hnd & Htl & Hsup & Hcur). unfold enqueue_path, _validate_audio_file.
  destruct (fs_exists a (_normalize_path raw)); cbn [negb]; [|done].
  destruct (endswith_any _ _) eqn:Hext; cbn [negb]; [|done].
  rewrite in_queue_elem_of.
  destruct (bool_decide (_normalize_path raw ∈ map path (queue a))) eqn:Hin;
    cbn [negb]; [done|].
  apply bool_decide_eq_false in Hin.
  split; [|split; [|split]]; cbn.
  - rewrite map_app. cbn. apply NoDup_app. split; [done|]. split.
    + intros x Hx Hx'. apply list_elem_of_singleton in Hx'. by subst.
    + apply NoDup_singleton.
  - rewrite map_app, Htl. done.
  - rewrite map_app. apply Forall_app. split; [done|]. by repeat constructor.
  - exact Hcur.
Qed.

Lemma enqueue_files_consistent raws : ∀ a,
  queue_consistent a → queue_consistent (fold_left enqueue_path raws a).
Proof.
  induction raws as [|raw r IH]; intros a Ha; [done|].
  cbn [fold_left]. apply IH. by apply enqueue_path_consistent.
Qed.

Lemma _process_next_task_consistent a :
  queue_consistent a → queue_consistent (_process_next_task a).
Proof.
  intros (Hnd & Htl & Hsup & Hcur). unfold _process_next_task.
  destruct (model_ready a); cbn [negb]; [|done].
  destruct (queue a) as [|t q] eqn:Hq; [by rewrite <- Hq in *|].
  destruct (model a); [|by rewrite <- Hq in *].
  cbn in Hnd, Htl, Hsup. apply NoDup_cons in Hnd as [_ Hnd].
  apply Forall_cons in Hsup as [Ht Hsup].
  split; [|split; [|split]]; cbn; try done.
  - by rewrite Htl.
  - by intros t' [= <-].
Qed.

Lemma worker_frame a w p outcome io :
  (queue (worker_begin w a) = queue a
   ∧ task_list (gui (worker_begin w a)) = task_list (gui a)
   ∧ (current_task (worker_begin w a) = current_task a
      ∨ current_task (worker_begin w a) = None))
  ∧ (queue (worker_end w p outcome io a) = queue a
     ∧ task_list (gui (worker_end w p outcome io a)) = task_list (gui a)
     ∧ current_task (worker_end w p outcome io a) = None).
Proof.
  split.
  - unfold worker_begin. cbn.
    destruct (current_task a) eqn:Hc; cbn; rewrite ?Hc;
      (split; [done|split; [done|auto]]).
  - unfold worker_end, _save_transcription_result.
    destruct outcome; [destruct (current_task a); [destruct io|]|]; done.
Qed.

Lemma progress_watcher_jobs a :
  queue (progress_watcher a) = queue a
  ∧ task_list (gui (progress_watcher a)) = task_list (gui a)
  ∧ current_task (progress_watcher a) = current_task a.
Proof.
  unfold progress_watcher. destruct (progress_parser a) as [p|]; [|done].
  destruct (heap (interp a) !! p) as [q|]; [|done].
  unfold read_progress.
  destruct (last _) as [tok|]; [|done].
  destruct (latest_progress tok) as [v|]; [|done].
  unfold _handle_progress_update. by destruct (percent_of v).
Qed.

Lemma queue_consistent_frame a a' :
  queue a' = queue a → task_list (gui a') = task_list (gui a) →
  (current_task a' = current_task a ∨ current_task a' = None) →
  queue_consistent a → queue_consistent a'.
Proof.
  intros Hq Htl Hc (Hnd & Ht & Hsup & Hcur). unfold queue_consistent.
  rewrite Hq, Htl. split; [done|]. split; [done|]. split; [done|].
  intros t Ht'. destruct Hc as [Hc|Hc]; rewrite Hc in Ht'; [auto|done].
Qed.

Lemma step_consistent a ev : queue_consistent a → queue_consistent (step a ev).
Proof.
  intros Ha. unfold step. destruct (running a); cbn [negb]; [|done].
  destruct ev as [|paths|data|i|w|text|w outcome io| |f|].
  - destruct (model a); [done|]. by eapply queue_consistent_frame; eauto.
  - by apply _process_next_task_consistent, enqueue_files_consistent.
  - by apply _process_next_task_consistent, enqueue_files_consistent.
  - destruct (pending a !! i) as [c|]; [|done].
    assert (queue_consistent (set_pending (delete i (pending a)) a)) as Ha'
      by by eapply queue_consistent_frame; eauto.
    destruct c; cbn [run_callback].
    + by apply _process_next_task_consistent.
    + by eapply queue_consistent_frame; eauto.
    + by eapply queue_consistent_frame; eauto.
    + percent_cases; by eapply queue_consistent_frame; eauto.
  - destruct (workers a !! w) as [[| |]|]; try done.
    destruct (worker_frame a w 0%nat (Raise TypeError) (Ok ()))
      as [(Hq & Ht & Hc) _].
    by eapply queue_consistent_frame; eauto.
  - by eapply queue_consistent_frame; eauto.
  - destruct (workers a !! w) as [[|p x|]|]; try done.
    destruct (worker_frame a w p outcome io) as [_ (Hq & Ht & Hc)].
    by eapply queue_consistent_frame; eauto.
  - destruct (progress_watcher_jobs a) as (Hq & Ht & Hc).
    by eapply queue_consistent_frame; eauto.
  - by eapply queue_consistent_frame; eauto.
  - by eapply queue_consistent_frame; eauto.
Qed.

(** X8.  In every run from the initial state the queue holds no path
    twice, the Listbox shows the pending paths in queue order, and every
    pending path and the path of the current job passed the extension
    test. *)
Theorem queue_stays_consistent fs evs :
  queue_consistent (run evs (init_app fs)).
Proof.
  assert (∀ a, queue_consistent a → queue_consistent (run evs a)) as H.
  { induction evs as [|ev r IH]; intros a Ha; [done|].
    cbn [run fold_left]. apply IH. by apply step_consistent. }
  apply H. split; [constructor|]. split; [done|]. split; [constructor|done].
Qed.

Lemma enqueue_files_errors raws : ∀ a,
  errors (gui (fold_left enqueue_path raws a))
  = errors (gui a) ++ rejections a raws.
Proof.
  induction raws as [|raw r IH]; intros a.
  - cbn. by rewrite app_nil_r.
  - cbn [fold_left]. rewrite IH.
    assert (rejections (enqueue_path a raw) r = rejections a r) as ->.
    { unfold rejections. f_equal.
      destruct (enqueue_path_frame a raw) as (_ & _ & Hfs & _).
      unfold _validate_audio_file. by rewrite Hfs. }
    unfold rejections at 2. cbn [flat_map]. fold (rejections a r).
    rewrite app_assoc. f_equal.
    unfold enqueue_path.
    destruct (_validate_audio_file a (_normalize_path raw)) as [[]|e].
    + destruct (negb _); cbn; by rewrite app_nil_r.
    + done.
Qed.

(** X9.  [_enqueue_files] handles a batch path by path: the queue
    receives the accepted paths in their order, one error message is shown
    for each path that fails validation, in their order, a duplicate is
    skipped without a message, and a failing path does not stop the
    batch. *)
Theorem enqueue_files_handles_each_path (a : App) raws :
  let a' := fold_left enqueue_path raws a in
  map path (queue a') = map path (queue a) ++ accepted a (map path (queue a)) raws
  ∧ errors (gui a') = errors (gui a) ++ rejections a raws
  ∧ _enqueue_files raws a = _process_next_task a'.
Proof.
  intros a'. split; [|split; [|done]].
  - by destruct (enqueue_files_loop raws a) as (H & _).
  - apply enqueue_files_errors.
Qed.
End QueueInvariant.

(** ** Before the model is loaded *)

Section Gate.
Context `{rt : Runtime}.

Lemma enqueue_files_waiting raws : ∀ a n,
  waiting_for_model n a → waiting_for_model n (fold_left enqueue_path raws a).
Proof.
  induction raws as [|raw r IH]; intros a n Ha; [done|].
  cbn [fold_left]. apply IH.
  destruct Ha as (? & ? & ? & ? & ? & ? & ? & ?).
  unfold enqueue_path.
  destruct (_validate_audio_file a (_normalize_path raw)) as [[]|e].
  - by destruct (negb _).
  - done.
Qed.

Lemma _process_next_task_waiting a n :
  waiting_for_model n a → waiting_for_model (S n) (_process_next_task a).
Proof.
  intros (? & Hr & ? & ? & ? & ? & ? & Hp). unfold _process_next_task.
  rewrite Hr. cbn [negb]. unfold after.
  repeat split; try done. cbn. rewrite Hp. symmetry. apply replicate_S_end.
Qed.

Lemma step_waiting a n ev :
  before_loading ev → waiting_for_model n a →
  waiting_for_model (if is_enqueue ev then S n else n) (step a ev).
Proof.
  intros [Hl Hc] Ha.
  pose proof Ha as (Hrun & Hr & Hm & Hw & Hct & Hpp & Hwr & Hp).
  unfold step. rewrite Hrun. cbn [negb].
  destruct ev as [|paths|data|i|w|text|w outcome io| |f|]; cbn [is_enqueue];
    try done.
  - by apply _process_next_task_waiting, enqueue_files_waiting.
  - by apply _process_next_task_waiting, enqueue_files_waiting.
  - destruct (pending a !! i) as [c|] eqn:Hi; [|done].
    assert (c = CbProcessNext ∧ (i < n)%nat) as [-> Hlt].
    { rewrite Hp in Hi. by apply lookup_replicate in Hi. }
    cbn [run_callback].
    assert (waiting_for_model (n - 1) (set_pending (delete i (pending a)) a))
      as Ha'.
    { repeat split; try done. cbn. rewrite Hp.
      clear -Hlt. revert i Hlt. induction n as [|n IH]; intros i Hlt; [lia|].
      destruct i as [|i]; cbn; [by rewrite Nat.sub_0_r|].
      rewrite IH by lia. destruct n; [lia|]. cbn. by rewrite Nat.sub_0_r. }
    apply _process_next_task_waiting in Ha'.
    by replace (S (n - 1)) with n in Ha' by lia.
  - by rewrite Hw.
  - by rewrite Hw.
  - unfold progress_watcher. by rewrite Hpp.
Qed.

(** X10.  Until [model_loader] has finished nothing is started: whatever
    is enqueued, dropped, polled or run by the main loop, no thread
    exists, no job is current, no transcript is written and the queue
    holds every accepted path; each enqueue call leaves one more scheduled
    call of [_process_next_task], and running one re-arms it. *)
Theorem nothing_starts_before_the_model_is_loaded fs evs :
  Forall before_loading evs →
  let a := run evs (init_app fs) in
  workers a = [] ∧ current_task a = None ∧ written a = []
  ∧ map path (queue a) = enqueue_order evs (init_app fs)
  ∧ pending a = replicate (length (filter is_enqueue evs)) CbProcessNext.
Proof.
  intros Hevs a.
  assert (∀ n a0, waiting_for_model n a0 →
            waiting_for_model (n + length (filter is_enqueue evs)) (run evs a0))
    as H.
  { clear a. induction Hevs as [|ev r Hev _ IH]; intros n a0 Ha0.
    - cbn. by rewrite Nat.add_0_r.
    - cbn [run fold_left].
      pose proof (step_waiting a0 n ev Hev Ha0) as Hs.
      apply IH in Hs. destruct (is_enqueue ev) eqn:He.
      + rewrite filter_cons_True by by rewrite He. cbn [length].
        by replace (n + S (length (filter is_enqueue r)))%nat
          with (S n + length (filter is_enqueue r))%nat by lia.
      + rewrite filter_cons_False; [exact Hs|]. rewrite He. by intros []. }
  destruct (H 0%nat (init_app fs)) as (_ & _ & _ & Hw & Hc & _ & Hwr & Hp);
    [done|].
  pose proof (run_order evs (init_app fs)) as Hfifo.
  split; [done|]. split; [done|]. split; [done|]. split; [|done].
  fold a in Hfifo. cbn in Hfifo. rewrite <- Hfifo.
  assert (∀ n a0, waiting_for_model n a0 → processing_order evs a0 = []) as Hno.
  { clear -Hevs. induction Hevs as [|ev r Hev _ IH]; intros n a0 Ha0; [done|].
    cbn [processing_order].
    pose proof (step_waiting a0 n ev Hev Ha0) as Hs.
    rewrite (IH _ _ Hs), app_nil_r. apply started_by_same.
    destruct Ha0 as (_ & _ & _ & -> & _). by destruct Hs as (_ & _ & _ & -> & _). }
  by rewrite (Hno 0%nat (init_app fs)).
Qed.
End Gate.

(** ** Drops and validation *)

Section Drops.
Context `{rt : Runtime}.

Lemma split_from_concat (s : list N) : ∀ cur,
  concat (split_from cur s)
  = rev cur ++ filter (fun c => uni_isspace c = false) s.
Proof.
  induction s as [|c r IH]; intros cur.
  - cbn. destruct cur; cbn; by rewrite ?app_nil_r.
  - cbn [split_from]. rewrite filter_cons.
    destruct (uni_isspace c) eqn:Hc.
    + rewrite decide_False by done.
      destruct cur as [|d cur]; [apply IH|].
      cbn [concat]. rewrite IH. done.
    + rewrite decide_True by done. rewrite IH. cbn [rev].
      by rewrite <- app_assoc.
Qed.

(** X11.  [str.split()] loses whitespace only: the fragments put end to
    end are the text without its whitespace characters, and no fragment is
    empty or holds a whitespace character. *)
Theorem split_keeps_the_visible_characters (s : list N) :
  concat (split s) = filter (fun c => uni_isspace c = false) s
  ∧ Forall (fun fragment => fragment ≠ [] ∧ no_space fragment) (split s).
Proof.
  split; [apply (split_from_concat s [])|].
  assert (∀ s cur, Forall (fun f => f ≠ []) (split_from cur s)) as Hne.
  { clear. induction s as [|c r IH]; intros cur; cbn.
    - destruct cur; [constructor|]. repeat constructor.
      intros H. apply (f_equal length) in H. rewrite length_rev in H.
      cbn in H. lia.
    - destruct (uni_isspace c); [|apply IH].
      destruct cur; [apply IH|]. constructor; [|apply IH].
      intros H. apply (f_equal length) in H. rewrite length_rev in H.
      cbn in H. lia. }
  pose proof (split_from_no_space s [] (Forall_nil_2 _)) as Hns.
  specialize (Hne s []). unfold split.
  apply Forall_forall. intros f Hf. split.
  - by apply (proj1 (Forall_forall _ _) Hne).
  - by apply (proj1 (Forall_forall _ _) Hns).
Qed.

Lemma split_blank s :
  Forall (fun c => uni_isspace c = true) s → split s = [].
Proof.
  unfold split. induction 1 as [|c r Hc _ IH]; [done|]. cbn. by rewrite Hc.
Qed.

(** X12.  A drop whose string is empty or all whitespace enqueues
    nothing and reports nothing; it only calls [_process_next_task]. *)
Theorem blank_drop_enqueues_nothing (a : App) s :
  Forall (fun c => uni_isspace c = true) s →
  _handle_dropped_files (DataStr s) a = _process_next_task a.
Proof.
  intros H. unfold _handle_dropped_files, _enqueue_files.
  by rewrite (split_blank s H).
Qed.
End Drops.

(** X13.  On POSIX a raw path made of braces only, the empty string
    included, normalizes to ["."], which never passes validation: the
    loop body shows an error and enqueues nothing. *)
Theorem path_of_braces_is_rejected (a : App) raw :
  Forall is_brace raw →
  _normalize_path raw = dot
  ∧ ∃ e, (e = FileNotFoundError dot ∨ e = UnsupportedFormat dot)
         ∧ enqueue_path a raw = _show_error (ErrText e) a.
Proof.
  intros H.
  assert (_normalize_path raw = dot) as Hn.
  { unfold _normalize_path, strip. rewrite lstrip_all_chars; [done|].
    eapply Forall_impl; [exact H|]. by intros c [-> | ->]. }
  split; [exact Hn|]. unfold enqueue_path. rewrite Hn.
  unfold _validate_audio_file.
  destruct (fs_exists a dot); cbn [negb].
  - exists (UnsupportedFormat dot). split; [by right|reflexivity].
  - exists (FileNotFoundError dot). split; [by left|reflexivity].
Qed.

Lemma startswith_app p s : startswith (p ++ s) p = true.
Proof.
  induction p as [|c p IH]; [by destruct s|]. cbn. by rewrite N.eqb_refl, IH.
Qed.

Lemma endswith_app s suffix : endswith (s ++ suffix) suffix = true.
Proof. unfold endswith. rewrite rev_app_distr. apply startswith_app. Qed.

(** X14.  The extension is compared after lower-casing: an existing path
    whose ending is [.wav] or [.mp3] in any mix of cases passes
    validation (ASCII runtime). *)
Theorem extension_is_compared_case_insensitively (a : App) stem ext :
  map ascii_lower_char ext ∈ SUPPORTED_FORMATS →
  fs_exists a (stem ++ ext) = true →
  _validate_audio_file a (stem ++ ext) = Ok ().
Proof.
  intros Hext Hex. unfold _validate_audio_file. rewrite Hex. cbn [negb].
  assert (endswith_any (str_lower (stem ++ ext)) SUPPORTED_FORMATS = true)
    as ->; [|done].
  unfold endswith_any. apply existsb_exists.
  exists (map ascii_lower_char ext). split; [by apply list_elem_of_In|].
  cbn [str_lower posix_ascii]. rewrite map_app. apply endswith_app.
Qed.

Section Serial.
Context `{rt : Runtime}.

Lemma worker_begin_keeps a w y :
  current_task a = Some y →
  pending (worker_begin w a) = pending a
  ∧ model_ready (worker_begin w a) = model_ready a
  ∧ model (worker_begin w a) = model a.
Proof. intros Hc. unfold worker_begin. cbn. by rewrite Hc. Qed.

Lemma worker_end_keeps a w p y text :
  current_task a = Some y →
  let a' := worker_end w p (Ok text) (Ok ()) a in
  pending a' = pending a ++ [CbProcessNext]
  ∧ workers a' = <[w := Finished]> (workers a)
  ∧ running a' = running a
  ∧ model_ready a' = model_ready a
  ∧ model a' = model a.
Proof.
  intros Hc. unfold worker_end, _save_transcription_result. by rewrite Hc.
Qed.

Lemma _process_next_task_keeps a :
  model_ready a = true →
  pending (_process_next_task a) = pending a
  ∧ model_ready (_process_next_task a) = true
  ∧ model (_process_next_task a) = model a.
Proof.
  intros Hr. unfold _process_next_task. rewrite Hr. cbn [negb].
  destruct (queue a); [done|].
  destruct (model a) eqn:Hm; cbn; by rewrite ?Hm, ?Hr.
Qed.

(** X15.  When the jobs run one after the other and every call and every
    write succeeds, the whole queue is drained: each job's transcript is
    written under its own path, in queue order, with the texts in the
    order the calls returned them, and no error is shown. *)
Theorem serial_run_writes_every_transcript texts : ∀ (a : App) t finished,
  running a = true → model_ready a = true → model a = true →
  current_task a = Some t →
  workers a = finished ++ [Spawned] →
  length texts = S (length (queue a)) →
  let a' := run (serial_events (length finished) (length (pending a)) texts) a in
  written a' = written a ++ zip (path t :: map path (queue a)) texts
  ∧ queue a' = []
  ∧ current_task a' = None
  ∧ errors (gui a') = errors (gui a)
  ∧ jobs_running a' = jobs_running a.
Proof.
  induction texts as [|text r IH];
    intros a t finished Hrun Hready Hmodel Hct Hw Hlen; [done|].
  cbn [serial_events]. cbn zeta. unfold run. rewrite fold_left_app.
  fold (run (serial_events (S (length finished)) (length (pending a)) r)).
  set (w := length finished) in *.
  (* thread w transcribes t *)
  assert (workers a !! w = Some Spawned) as Hlw
    by (rewrite Hw; by apply list_lookup_middle).
  assert (step a (EvWorkerBegin w) = worker_begin w a) as Hb
    by (unfold step; by rewrite Hrun, Hlw).
  destruct (worker_begin_with_task a w t Hct)
    as (Hw1 & Hc1 & Hq1 & Hwr1 & He1 & Hr1).
  destruct (worker_begin_keeps a w t Hct) as (Hp1 & Hy1 & Hm1).
  set (p := length (heap (interp a))) in *.
  assert (workers (worker_begin w a) !! w = Some (Transcribing p (path t)))
    as Hlw1.
  { rewrite Hw1. apply list_lookup_insert_eq. by eapply lookup_lt_Some. }
  assert (step (worker_begin w a) (EvWorkerEnd w (Ok text) (Ok ()))
          = worker_end w p (Ok text) (Ok ()) (worker_begin w a)) as He
    by (unfold step; by rewrite Hr1, Hrun, Hlw1).
  destruct (worker_end_success (worker_begin w a) w p t text Hc1)
    as (Hwr2 & Hq2 & He2 & _ & Hc2).
  destruct (worker_end_keeps (worker_begin w a) w p t text Hc1)
    as (Hp2 & Hw2 & Hr2 & Hy2 & Hm2).
  set (a2 := worker_end w p (Ok text) (Ok ()) (worker_begin w a)) in *.
  assert (workers a2 = finished ++ [Finished]) as Hw2'.
  { rewrite Hw2, Hw1, Hw. rewrite list_insert_insert_eq.
    unfold w. rewrite insert_app_r_alt by lia. by rewrite Nat.sub_diag. }
  (* the main loop runs the callback the thread left *)
  set (a2' := set_pending (delete (length (pending a)) (pending a2)) a2).
  assert (step a2 (EvTick (length (pending a))) = _process_next_task a2') as Ht.
  { assert (pending a2 !! length (pending a) = Some CbProcessNext) as Hl
      by (rewrite Hp2, Hp1; by apply list_lookup_middle).
    unfold step. rewrite Hr2, Hr1, Hrun. cbn [negb]. by rewrite Hl. }
  assert (pending a2' = pending a) as Hp2'.
  { unfold a2'. cbn [pending set_pending]. rewrite Hp2, Hp1.
    rewrite delete_middle. by rewrite app_nil_r. }
  assert (model_ready a2' = true) as Hy2'
    by (unfold a2'; cbn [model_ready set_pending]; by rewrite Hy2, Hy1).
  assert (model a2' = true) as Hm2'
    by (unfold a2'; cbn [model set_pending]; by rewrite Hm2, Hm1).
  assert (queue a2' = queue a) as Hq2'
    by (unfold a2'; cbn [queue set_pending]; by rewrite Hq2, Hq1).
  destruct (_process_next_task_keeps a2' Hy2') as (Hp3 & Hy3 & Hm3).
  cbn [fold_left]. rewrite Hb, He, Ht.
  destruct (queue a) as [|t' q] eqn:Hq.
  - (* nothing is pending: the run is over *)
    destruct r; [|cbn in Hlen; lia]. cbn [serial_events run fold_left].
    assert (_process_next_task a2' = a2') as ->.
    { unfold _process_next_task. by rewrite Hy2', Hq2'. }
    cbn [written queue current_task gui a2' set_pending].
    rewrite Hwr2, Hwr1, Hq2, Hq1, Hc2, He2, He1.
    repeat split; try done.
    unfold jobs_running. cbn [workers a2' set_pending].
    rewrite Hw2', Hw. by rewrite !filter_app.
  - (* the next job is popped and thread w + 1 is started *)
    destruct (_process_next_task_pops a2' t' q Hy2' Hm2' Hq2')
      as (Hq3 & Hc3 & Hw3 & _ & Hwr3 & He3 & Hr3).
    set (a3 := _process_next_task a2') in *.
    destruct (IH a3 t' (finished ++ [Finished])) as (Hwr4 & Hq4 & Hc4 & He4 & Hj4).
    + rewrite Hr3. unfold a2'. cbn [running set_pending]. by rewrite Hr2, Hr1.
    + done.
    + by rewrite Hm3.
    + done.
    + rewrite Hw3. unfold a2'. cbn [workers set_pending]. by rewrite Hw2'.
    + rewrite Hq3. cbn in Hlen. lia.
    + rewrite length_app in Hwr4, Hq4, Hc4, He4, Hj4. cbn [length] in *.
      replace (length finished + 1)%nat with (S w) in * by (unfold w; lia).
      rewrite Hp3, Hp2' in *.
      change (fold_left step (serial_events (S w) (length (pending a)) r) a3)
        with (run (serial_events (S w) (length (pending a)) r) a3).
      rewrite Hwr4, Hq4, Hc4, He4, Hj4, Hwr3, He3, Hq3.
      cbn [written gui a2' set_pending]. rewrite Hwr2, Hwr1, He2, He1.
      cbn [map zip zip_with]. rewrite <- app_assoc.
      repeat split; try done.
      unfold jobs_running. rewrite Hw3. cbn [workers a2' set_pending].
      rewrite Hw2', Hw. rewrite !filter_app, !length_app. done.
Qed.
End Serial.

(** ** What is written *)

Section Written.
Context `{rt : Runtime}.

Lemma accounted_frame started a a' :
  (current_task a' = current_task a ∨ current_task a' = None) →
  written a' = written a →
  accounted started a → accounted started a'.
Proof.
  intros Hc Hw [Hcur Hwr]. split; [|by rewrite Hw].
  intros t Ht. destruct Hc as [Hc|Hc]; rewrite Hc in Ht; [auto|done].
Qed.

Lemma accounted_more started more a :
  accounted started a → accounted (started ++ more) a.
Proof.
  intros [Hcur Hwr]. split.
  - intros t Ht. apply elem_of_app. left. auto.
  - eapply Forall_impl; [exact Hwr|]. intros e He. apply elem_of_app. by left.
Qed.

Lemma enqueue_files_written raws : ∀ a,
  written (fold_left enqueue_path raws a) = written a.
Proof.
  induction raws as [|raw r IH]; intros a; [done|]. cbn [fold_left].
  rewrite IH. unfold enqueue_path.
  destruct (_validate_audio_file a (_normalize_path raw)) as [[]|e]; [|done].
  by destruct (negb _).
Qed.

Lemma _process_next_task_accounted started a0 a :
  workers a0 = workers a →
  accounted started a →
  accounted (started ++ started_by a0 (_process_next_task a))
    (_process_next_task a).
Proof.
  intros Hw Ha. unfold started_by, _process_next_task.
  destruct (model_ready a); cbn [negb].
  - destruct (queue a) as [|t q].
    + rewrite Hw, Nat.ltb_irrefl, app_nil_r. done.
    + destruct (model a).
      * cbn -[Nat.ltb]. rewrite Hw, length_app. cbn -[Nat.ltb].
        replace (length (workers a) <? length (workers a) + 1)%nat with true
          by (symmetry; apply Nat.ltb_lt; lia).
        destruct Ha as [_ Hwr]. split.
        -- intros t' [= <-]. apply elem_of_app. right. by left.
        -- eapply Forall_impl; [exact Hwr|]. intros e He.
           apply elem_of_app. by left.
      * rewrite Hw, Nat.ltb_irrefl, app_nil_r. done.
  - cbn -[Nat.ltb]. rewrite Hw, Nat.ltb_irrefl, app_nil_r. done.
Qed.

Lemma worker_end_accounted started a w p outcome io :
  accounted started a → accounted started (worker_end w p outcome io a).
Proof.
  intros [Hcur Hwr]. unfold worker_end, _save_transcription_result.
  destruct outcome as [text|e]; [|by split].
  destruct (current_task a) as [t|] eqn:Ht; [|by split].
  destruct io as [[]|e]; [|by split].
  split; [done|]. cbn. apply Forall_app. split; [done|].
  apply Forall_singleton. cbn. auto.
Qed.

Lemma step_accounted started a ev :
  accounted started a →
  accounted (started ++ started_by a (step a ev)) (step a ev).
Proof.
  intros Ha.
  assert (∀ a', length (workers a') = length (workers a) →
                accounted started a' →
                accounted (started ++ started_by a a') a') as Hsame.
  { intros a' Hl Ha'. by rewrite started_by_same, app_nil_r. }
  unfold step. destruct (running a) eqn:Hrun; cbn [negb]; [|by apply Hsame].
  destruct ev as [|paths|data|i|w|text|w outcome io| |f|].
  - destruct (model a); by apply Hsame.
  - unfold _enqueue_files.
    destruct (enqueue_files_loop paths a) as (_ & Hw & Hc & _).
    apply _process_next_task_accounted; [done|].
    eapply accounted_frame; [left; exact Hc|apply enqueue_files_written|done].
  - unfold _handle_dropped_files, _enqueue_files.
    set (files := match data with DataStr s => split s | DataList l => l end).
    destruct (enqueue_files_loop files a) as (_ & Hw & Hc & _).
    apply _process_next_task_accounted; [done|].
    eapply accounted_frame; [left; exact Hc|apply enqueue_files_written|done].
  - destruct (pending a !! i) as [c|]; [|by apply Hsame].
    destruct c; cbn [run_callback]; try percent_cases; try by apply Hsame.
    by apply _process_next_task_accounted.
  - destruct (workers a !! w) as [[| |]|]; try by apply Hsame.
    apply Hsame.
    + unfold worker_begin. cbn. destruct (current_task a); cbn;
        by rewrite length_insert.
    + eapply accounted_frame; [| |exact Ha].
      * unfold worker_begin. cbn. destruct (current_task a) eqn:Hc; cbn;
          rewrite ?Hc; auto.
      * unfold worker_begin. cbn. by destruct (current_task a).
  - by apply Hsame.
  - destruct (workers a !! w) as [[|p x|]|]; try by apply Hsame.
    apply Hsame; [|by apply worker_end_accounted].
    destruct (worker_end_failure a w p (Raise TypeError) io (ErrText TypeError)
                eq_refl) as (_ & _ & _ & _ & Hw & _).
    unfold worker_end, _save_transcription_result.
    destruct outcome; [destruct (current_task a); [destruct io|]|]; cbn;
      by rewrite length_insert.
  - destruct (progress_watcher_frame a) as [_ Hw].
    apply Hsame; [by rewrite Hw|].
    eapply accounted_frame; [| |exact Ha].
    + left. unfold progress_watcher. destruct (progress_parser a) as [p|]; [|done].
      destruct (heap (interp a) !! p) as [q|]; [|done].
      unfold read_progress. destruct (last _) as [tok|]; [|done].
      destruct (latest_progress tok) as [v|]; [|done].
      unfold _handle_progress_update. by destruct (percent_of v).
    + unfold progress_watcher. destruct (progress_parser a) as [p|]; [|done].
      destruct (heap (interp a) !! p) as [q|]; [|done].
      unfold read_progress. destruct (last _) as [tok|]; [|done].
      destruct (latest_progress tok) as [v|]; [|done].
      unfold _handle_progress_update. by destruct (percent_of v).
  - by apply Hsame.
  - by apply Hsame.
Qed.

(** X16.  In every run from the initial state a transcript is written
    only under the path of a job that has begun processing. *)
Theorem transcripts_belong_to_started_jobs fs evs :
  Forall (fun entry => entry.1 ∈ processing_order evs (init_app fs))
    (written (run evs (init_app fs))).
Proof.
  assert (∀ a started, accounted started a →
            accounted (started ++ processing_order evs a) (run evs a)) as H.
  { induction evs as [|ev r IH]; intros a started Ha.
    - cbn. by rewrite app_nil_r.
    - cbn [run fold_left processing_order]. rewrite app_assoc.
      apply IH. by apply step_accounted. }
  destruct (H (init_app fs) []) as [_ Hw]; [by split|]. exact Hw.
Qed.
End Written.

(** ** The path of the transcript *)

Lemma split_slash_no_slash_id c : slash ∉ c → split_slash c = [c].
Proof.
  induction c as [|x c IH]; intros H; [done|]. cbn.
  destruct (x =? slash) eqn:Hx.
  { apply N.eqb_eq in Hx as ->. exfalso. apply H. by left. }
  rewrite IH; [done|]. intros Hin. apply H. by right.
Qed.

Lemma split_slash_app c s :
  slash ∉ c →
  split_slash (c ++ slash :: s) = c :: split_slash s.
Proof.
  induction c as [|x c IH]; intros H.
  - cbn. unfold slash. done.
  - cbn. destruct (x =? slash) eqn:Hx.
    { apply N.eqb_eq in Hx as ->. exfalso. apply H. by left. }
    rewrite IH; [done|]. intros Hin. apply H. by right.
Qed.

Lemma split_join_slash comps :
  comps ≠ [] → Forall (fun c => slash ∉ c) comps →
  split_slash (join_slash comps) = comps.
Proof.
  induction comps as [|c cs IH]; [done|]. intros _ Hall.
  apply Forall_cons in Hall as [Hc Hcs]. destruct cs as [|d cs].
  - cbn. by apply split_slash_no_slash_id.
  - change (join_slash (c :: d :: cs)) with (c ++ slash :: join_slash (d :: cs)).
    rewrite split_slash_app by done. by rewrite IH.
Qed.

Lemma path_parts_plain comps :
  Forall plain comps → List.filter
    (fun x => negb (bool_decide (x = [])) && negb (bool_decide (x = dot))) comps
  = comps.
Proof.
  induction 1 as [|c cs [[Hne _] Hd] _ IH]; [done|]. cbn.
  rewrite (bool_decide_eq_false_2 _ Hne), (bool_decide_eq_false_2 _ Hd).
  cbn. by rewrite IH.
Qed.

Lemma split_slash_leading k s :
  split_slash (repeat slash k ++ s) = repeat [] k ++ split_slash s.
Proof. induction k as [|k IH]; [done|]. cbn. by rewrite IH. Qed.

Lemma path_parts_leading k s :
  path_parts (repeat slash k ++ s) = path_parts s.
Proof.
  unfold path_parts. rewrite split_slash_leading.
  induction k as [|k IH]; [done|]. exact IH.
Qed.

Lemma path_parts_canonical k comps :
  comps ≠ [] → Forall plain comps →
  path_parts (repeat slash k ++ join_slash comps) = comps.
Proof.
  intros Hne Hall. rewrite path_parts_leading. unfold path_parts.
  rewrite split_join_slash; [by apply path_parts_plain|done|].
  eapply Forall_impl; [exact Hall|]. by intros c [[_ H] _].
Qed.

Lemma path_root_canonical k comps :
  (k ≤ 2)%nat → comps ≠ [] → Forall plain comps →
  path_root (repeat slash k ++ join_slash comps) = repeat slash k.
Proof.
  intros Hk Hne Hall.
  assert (∃ c r, join_slash comps = c :: r ∧ c ≠ slash) as (c & r & -> & Hc).
  { destruct comps as [|x xs]; [done|].
    apply Forall_cons in Hall as [[[Hx Hs] _] _].
    destruct x as [|c x]; [done|].
    exists c. destruct xs; cbn; eexists; (split; [done|]);
      intros ->; apply Hs; by left. }
  apply N.eqb_neq in Hc.
  destruct k as [|[|[|k]]]; [| | |lia]; cbn; by rewrite Hc.
Qed.

Lemma rsplit_dot_app base ext :
  46 ∉ ext → rsplit_dot (base ++ 46 :: ext) = Some (base, ext).
Proof.
  intros Hext.
  assert (rsplit_dot ext = None) as Hn.
  { induction ext as [|c e IH]; [done|]. cbn.
    rewrite IH by (intros H; apply Hext; by right).
    destruct (c =? 46) eqn:Hc; [|done].
    apply N.eqb_eq in Hc as ->. exfalso. apply Hext. by left. }
  induction base as [|c b IH]; cbn.
  - by rewrite Hn.
  - by rewrite IH.
Qed.

Lemma path_stem_app base ext :
  base ≠ [] → ext ≠ [] → 46 ∉ ext → path_stem (base ++ 46 :: ext) = base.
Proof.
  intros Hb He Hd. unfold path_stem. rewrite rsplit_dot_app by done.
  destruct base as [|b base]; [done|]. destruct ext as [|e ext]; [done|].
  reflexivity.
Qed.

Lemma snoc_not_nil {A} (l : list A) x : l ++ [x] ≠ [].
Proof. by destruct l. Qed.

(** Computes [transcript_path] on a path given by its parts. *)
Ltac transcript_of_parts Hk Hdirs Hname :=
  unfold transcript_path;
  rewrite path_parts_canonical;
    [|apply snoc_not_nil|apply Forall_app; split; [exact Hdirs|];
                           apply Forall_singleton; exact Hname];
  rewrite rev_app_distr; cbn [rev app]; rewrite rev_involutive;
  rewrite path_root_canonical;
    [|exact Hk|apply snoc_not_nil|apply Forall_app; split; [exact Hdirs|];
                                    apply Forall_singleton; exact Hname].

(** X17.  For a source path made of at most two leading separators,
    directories and a file name [base.ext] whose base is not made of dots,
    the transcript path is the same directories with the file name
    [base_transcript.txt]. *)
Theorem transcript_goes_next_to_the_source k dirs base ext :
  (k ≤ 2)%nat → Forall plain dirs → plain (base ++ 46 :: ext) →
  Exists (fun c => c ≠ 46) base → ext ≠ [] → 46 ∉ ext →
  transcript_path (repeat slash k ++ join_slash (dirs ++ [base ++ 46 :: ext]))
  = Some (repeat slash k ++ join_slash (dirs ++ [base ++ transcript_suffix])).
Proof.
  intros Hk Hdirs Hname Hv He Hd.
  assert (base ≠ []) as Hb by (intros ->; by apply Exists_nil in Hv).
  transcript_of_parts Hk Hdirs Hname.
  by rewrite path_stem_app.
Qed.

(** X18.  Two sources in one directory that differ in their extension
    only, as [x.wav] and [x.mp3], get the same transcript path: the later
    transcript overwrites the earlier one. *)
Theorem same_stem_same_transcript k dirs base ext1 ext2 :
  (k ≤ 2)%nat → Forall plain dirs →
  plain (base ++ 46 :: ext1) → plain (base ++ 46 :: ext2) →
  Exists (fun c => c ≠ 46) base →
  ext1 ≠ [] → ext2 ≠ [] → 46 ∉ ext1 → 46 ∉ ext2 →
  transcript_path (repeat slash k ++ join_slash (dirs ++ [base ++ 46 :: ext1]))
  = transcript_path (repeat slash k ++ join_slash (dirs ++ [base ++ 46 :: ext2])).
Proof.
  intros Hk Hdirs Hn1 Hn2 Hv He1 He2 Hd1 Hd2.
  assert (base ≠ []) as Hb by (intros ->; by apply Exists_nil in Hv).
  transcript_of_parts Hk Hdirs Hn1. transcript_of_parts Hk Hdirs Hn2.
  by rewrite !path_stem_app.
Qed.

(** X19.  Whatever the source, the transcript path ends with [.txt] and
    does not pass validation: a transcript is never accepted into the
    queue (ASCII runtime). *)
Theorem transcript_is_not_accepted_as_audio (a : App) source out :
  transcript_path source = Some out →
  ∃ e, _validate_audio_file a out = Raise e.
Proof.
  unfold transcript_path. destruct (rev (path_parts source)) as [|name parents];
    [done|].
  intros [= <-].
  destruct (join_slash_last (rev parents) (path_stem name ++ transcript_suffix))
    as [before Hj].
  unfold pystr in *. rewrite Hj.
  set (pre := path_root source ++ before ++ path_stem name).
  assert (path_root source ++ before ++ path_stem name ++ transcript_suffix
          = pre ++ transcript_suffix) as ->
    by (unfold pre; by rewrite <- !app_assoc).
  unfold _validate_audio_file. destruct (fs_exists a _); cbn [negb]; [|eauto].
  assert (endswith_any (str_lower (pre ++ transcript_suffix)) SUPPORTED_FORMATS
          = false) as ->; [|cbn; eauto].
  cbn [str_lower posix_ascii]. rewrite map_app.
  unfold endswith_any, endswith. cbn [existsb SUPPORTED_FORMATS].
  rewrite !rev_app_distr. reflexivity.
Qed.

(** ** Witnesses of the further properties *)

Lemma findall_matches_are_tokens_witness :
  ∃ pre post, token_at sample_text pre (py "42") post.
Proof.
  apply (findall_matches_are_tokens sample_text (py "42")).
  apply list_elem_of_In. vm_compute. tauto.
Defined.

Lemma read_progress_no_token_witness :
  token_free (py "Detected language: Russian 42 %")
  ∧ read_progress record_value
      (fresh_parser (py "Detected language: Russian 42 %")) []
    = (drain (fresh_parser (py "Detected language: Russian 42 %")), [],
       Ok 0%Q).
Proof.
  assert (token_free (py "Detected language: Russian 42 %")) as H
    by (apply all_matches_nil_token_free; reflexivity).
  split; [exact H|].
  exact (read_progress_no_token record_value
           (fresh_parser (py "Detected language: Russian 42 %")) [] H).
Defined.

Lemma progress_watcher_publishes_last_token_witness :
  let a := reporting (py "[00:00.000 --> 00:04.000] 42%") in
  pending (progress_watcher a)
  = [CbProgressBarSet float_042; CbUpdateProgressUI float_042]
  ∧ lbl_status (gui (progress_watcher a)) = StProgress 42.
Proof.
  intros a.
  destruct (progress_watcher_publishes_last_token a 0
              (fresh_parser (py "[00:00.000 --> 00:04.000] 42%")) (py "42"))
    as (v & percent & Hv & Hpercent & Hp & Hl & _).
  - reflexivity.
  - reflexivity.
  - apply (last_token_intro (py "[00:00.000 --> 00:04.000]") 32 (py "42") []);
      [reflexivity | discriminate | repeat constructor | reflexivity].
  - right. simpl. lia.
  - reflexivity.
  - assert (v = float_042) as -> by (vm_compute in Hv; by injection Hv as <-).
    assert (percent = 42%Z) as ->
      by (vm_compute in Hpercent; by injection Hpercent as <-).
    split; [exact Hp|exact Hl].
Defined.

Lemma progress_watcher_prints_its_error_into_the_capture_witness :
  let a := reporting (32 :: googol309 ++ [37]) in
  (buffer <$> heap (interp (progress_watcher a)) !! 0%nat)
  = Some (watcher_error_line InfinityToInt)
  ∧ console (interp (progress_watcher a)) = []
  ∧ ¬ pending (progress_watcher a) = pending a.
Proof.
  intros a.
  destruct (progress_watcher_prints_its_error_into_the_capture a 0
              (fresh_parser (32 :: googol309 ++ [37])) InfinityToInt)
    as (Hh & Hc & _ & [Hp|[_ [v Hp]]]).
  - reflexivity.
  - reflexivity.
  - reflexivity.
  - vm_compute. reflexivity.
  - exfalso. apply (f_equal length) in Hp. vm_compute in Hp. discriminate.
  - split; [by rewrite Hh|]. split; [exact Hc|].
    rewrite Hp. intros H. apply (f_equal length) in H.
    rewrite length_app in H. simpl in H. lia.
Defined.

Lemma nothing_starts_before_the_model_is_loaded_witness :
  let evs := [EvOpenFiles [a_wav]; EvTick 0; EvDrop (DataStr (py "b.wav a.wav"));
              EvWorkerBegin 0; EvMonitor] in
  workers (run evs (init_app every_file)) = []
  ∧ map path (queue (run evs (init_app every_file))) = [a_wav; b_wav]
  ∧ pending (run evs (init_app every_file)) = [CbProcessNext; CbProcessNext].
Proof.
  intros evs.
  destruct (nothing_starts_before_the_model_is_loaded every_file evs)
    as (Hw & _ & _ & Hq & Hp).
  - repeat constructor; discriminate.
  - split; [exact Hw|]. split; [by rewrite Hq|exact Hp].
Defined.

Lemma blank_drop_enqueues_nothing_witness :
  _handle_dropped_files (DataStr (py "   ")) (init_app every_file)
  = _process_next_task (init_app every_file).
Proof.
  apply (blank_drop_enqueues_nothing (init_app every_file) (py "   ")).
  by repeat constructor.
Defined.

Lemma path_of_braces_is_rejected_witness :
  _normalize_path (py "{}") = dot
  ∧ queue (enqueue_path (init_app every_file) (py "{}")) = [].
Proof.
  destruct (path_of_braces_is_rejected (init_app every_file) (py "{}"))
    as (Hn & e & _ & He).
  - apply Forall_cons. split; [by left|]. apply Forall_singleton. by right.
  - split; [exact Hn|]. by rewrite He.
Defined.

Lemma extension_is_compared_case_insensitively_witness :
  _validate_audio_file (init_app every_file) (py "/x/SONG.WaV") = Ok ().
Proof.
  apply (extension_is_compared_case_insensitively (init_app every_file)
           (py "/x/SONG") (py ".WaV")).
  - apply list_elem_of_In. vm_compute. tauto.
  - reflexivity.
Defined.

Lemma serial_run_writes_every_transcript_witness :
  let evs := serial_events 0 0 [py "first"; py "second"] in
  written (run evs ready_with_two_jobs)
  = [(x_mp3, py "first"); (y_wav, py "second")]
  ∧ queue (run evs ready_with_two_jobs) = [].
Proof.
  intros evs.
  destruct (serial_run_writes_every_transcript [py "first"; py "second"]
              ready_with_two_jobs (waiting_task x_mp3) [])
    as (Hw & Hq & _); try reflexivity.
  split; [exact Hw|exact Hq].
Defined.

Lemma same_stem_same_transcript_witness :
  transcript_path (py "/music/live/x.mp3")
  = transcript_path (py "/music/live/x.wav").
Proof.
  assert (∀ c, c = py "music" ∨ c = py "live" ∨ c = py "x.mp3" ∨ c = py "x.wav"
               → plain c) as Hplain.
  { intros c Hc. repeat split.
    - by destruct Hc as [-> | [-> | [-> | ->]]].
    - intros Hin. destruct Hc as [-> | [-> | [-> | ->]]];
        repeat (apply elem_of_cons in Hin as [Hin|Hin]; [discriminate|]);
        by apply elem_of_nil in Hin.
    - by destruct Hc as [-> | [-> | [-> | ->]]]. }
  assert ((46 ∉ py "mp3") ∧ (46 ∉ py "wav")) as [H3 Hw].
  { split; intros Hin;
      repeat (apply elem_of_cons in Hin as [Hin|Hin]; [discriminate|]);
      by apply elem_of_nil in Hin. }
  refine (same_stem_same_transcript 1 [py "music"; py "live"] (py "x")
            (py "mp3") (py "wav") _ _ _ _ _ _ _ H3 Hw); try done; try lia.
  - repeat constructor; apply Hplain; auto.
  - apply Hplain. auto.
  - apply Hplain. auto.
  - apply Exists_cons. by left.
Defined.

Lemma transcript_is_not_accepted_as_audio_witness :
  transcript_path (py "live/x.mp3") = Some (py "live/x_transcript.txt")
  ∧ ∃ e, _validate_audio_file (init_app every_file)
           (py "live/x_transcript.txt") = Raise e.
Proof.
  split; [reflexivity|].
  exact (transcript_is_not_accepted_as_audio (init_app every_file)
           (py "live/x.mp3") (py "live/x_transcript.txt") eq_refl).
Defined.

Lemma transcript_goes_next_to_the_source_witness :
  transcript_path (py "/music/live/x.mp3")
  = Some (py "/music/live/x_transcript.txt").
Proof.
  assert (∀ c, c = py "music" ∨ c = py "live" ∨ c = py "x.mp3" → plain c)
    as Hplain.
  { intros c Hc. repeat split.
    - by destruct Hc as [-> | [-> | ->]].
    - intros Hin. destruct Hc as [-> | [-> | ->]];
        repeat (apply elem_of_cons in Hin as [Hin|Hin]; [discriminate|]);
        by apply elem_of_nil in Hin.
    - by destruct Hc as [-> | [-> | ->]]. }
  assert (46 ∉ py "mp3") as H3.
  { intros Hin.
    repeat (apply elem_of_cons in Hin as [Hin|Hin]; [discriminate|]).
    by apply elem_of_nil in Hin. }
  refine (transcript_goes_next_to_the_source 1 [py "music"; py "live"]
            (py "x") (py "mp3") _ _ _ _ _ H3); try done; try lia.
  - repeat constructor; apply Hplain; auto.
  - apply Hplain. auto.
  - apply Exists_cons. by left.
Defined.

Lemma capture_holds_what_is_printed_witness :
  let boot := {| sys_stdout := Console; heap := []; console := [] |} in
  let printed :=
    stdout_write (py " 42%") (ProgressParser_enter 0 (ProgressParser_init boot).2) in
  console (stdout_write (py "done") (ProgressParser_exit 0 printed))
  = py "done".
Proof.
  intros boot printed.
  destruct (capture_holds_what_is_printed boot (py " 42%"))
    as (_ & _ & _ & _ & Hlater).
  exact (Hlater eq_refl (py "done")).
Defined.

Lemma progress_label_is_token_or_one_less_witness :
  ∃ v, truediv_100 29 = Ok v ∧ percent_of v = Ok 28%Z
       ∧ (29 - 1 <= 28 <= 29)%Z.
Proof.
  eexists. split; [vm_compute; reflexivity|]. split; [vm_compute; reflexivity|].
  refine (progress_label_is_token_or_one_less 29 _ 28 _ eq_refl eq_refl).
  done.
Defined.
